(** * select-zoom: pinch-zoom / pan gesture engine ([src/zoom.js])

    A shallow embedding of [zoom.js] and the properties its specification
    states about it.

    Numbers.  A JavaScript number is modelled by [number]: a finite value
    carried by a real, or one of the three special values [PInf], [NInf],
    [NaN].  Arithmetic on finite values is exact (no rounding, no overflow,
    one zero); the special values follow IEEE 754 as JavaScript does:
    [0/0 = NaN], [x/0 = +-Infinity], [0 * Infinity = NaN], every comparison
    with [NaN] is false.  The carrier is the reals because the scale-only
    solver takes square roots.

    This is the reading of the code over the real numbers, the data model
    of the specification.  The code runs on binary64, where [+], [-], [*],
    [/] and [Math.sqrt] round.  What is proved in this reading about
    flooring, clamping, comparisons, the store and the state machine does
    not depend on the rounding.  A statement about the value of a sum,
    product, quotient or root is true of binary64 only where those
    operations are exact there: each such statement either is restricted to
    such inputs or says that it is about the real numbers.  Module [B64]
    gives the vector algebra and the solver on binary64 itself (primitive
    floats), to evaluate the code as it runs.

    Objects.  [Transform] objects are mutable in the source
    ([Transform.prototype.css] writes into [this.A] and [this.b]) and the
    engine keeps two references to them ([activeZoom], [resultantZoom]) that
    may point to the same object.  They therefore live in a store
    ([heap : list Transform]) and the engine holds indices into it.  The
    arrays [A] and [b] of a Transform are always created together with it
    and never shared between two Transforms, so a store cell holds them by
    value. *)

From Stdlib Require Import Reals Lra List Bool Arith Lia ZArith.
From Stdlib Require PrimFloat.
Import ListNotations.

Open Scope R_scope.

(** ** JavaScript numbers *)

Module JS.

Inductive number : Type :=
| Num (r : R)
| PInf
| NInf
| NaN.

Definition Rltb (x y : R) : bool := if Rlt_dec x y then true else false.
Definition Reqb (x y : R) : bool := if Req_dec_T x y then true else false.

(** The infinity with the sign of [r]; [NaN] when [r] is zero (used for
    [r * Infinity] and for [r / 0]). *)
Definition inf_of_sign (r : R) : number :=
  if Rltb 0 r then PInf else if Rltb r 0 then NInf else NaN.

Definition neg (x : number) : number :=
  match x with
  | Num a => Num (- a)
  | PInf => NInf
  | NInf => PInf
  | NaN => NaN
  end.

Definition add (x y : number) : number :=
  match x, y with
  | NaN, _ | _, NaN => NaN
  | Num a, Num b => Num (a + b)
  | PInf, NInf | NInf, PInf => NaN
  | PInf, _ | _, PInf => PInf
  | NInf, _ | _, NInf => NInf
  end.

Definition sub (x y : number) : number :=
  match x, y with
  | NaN, _ | _, NaN => NaN
  | Num a, Num b => Num (a - b)
  | PInf, PInf | NInf, NInf => NaN
  | PInf, _ | _, NInf => PInf
  | NInf, _ | _, PInf => NInf
  end.

Definition mul (x y : number) : number :=
  match x, y with
  | NaN, _ | _, NaN => NaN
  | Num a, Num b => Num (a * b)
  | Num a, PInf | PInf, Num a => inf_of_sign a
  | Num a, NInf | NInf, Num a => inf_of_sign (- a)
  | PInf, PInf | NInf, NInf => PInf
  | PInf, NInf | NInf, PInf => NInf
  end.

Definition div (x y : number) : number :=
  match x, y with
  | NaN, _ | _, NaN => NaN
  | Num a, Num b => if Reqb b 0 then inf_of_sign a else Num (a / b)
  | Num _, _ => Num 0
  | PInf, Num b => if Rltb b 0 then NInf else PInf
  | NInf, Num b => if Rltb b 0 then PInf else NInf
  | _, _ => NaN
  end.

(** [x < y]; [x > y] is [lt y x]. *)
Definition lt (x y : number) : bool :=
  match x, y with
  | NaN, _ | _, NaN => false
  | Num a, Num b => Rltb a b
  | NInf, NInf | PInf, _ | _, NInf => false
  | _, _ => true
  end.

Definition gt (x y : number) : bool := lt y x.

(** [x <= y]; [x >= y] is [le y x]. *)
Definition le (x y : number) : bool :=
  match x, y with
  | NaN, _ | _, NaN => false
  | _, _ => negb (lt y x)
  end.

Definition ge (x y : number) : bool := le y x.

(** [x == y] on numbers. *)
Definition eq (x y : number) : bool :=
  match x, y with
  | Num a, Num b => Reqb a b
  | PInf, PInf | NInf, NInf => true
  | _, _ => false
  end.

(** [Math.abs]. *)
Definition abs (x : number) : number :=
  match x with
  | Num a => Num (Rabs a)
  | PInf | NInf => PInf
  | NaN => NaN
  end.

(** [Math.sqrt]. *)
Definition sqrt (x : number) : number :=
  match x with
  | Num a => if Rltb a 0 then NaN else Num (R_sqrt.sqrt a)
  | PInf => PInf
  | NInf | NaN => NaN
  end.

(** Truthiness of a number: [0] and [NaN] are falsy. *)
Definition truthy (x : number) : bool :=
  match x with
  | Num a => negb (Reqb a 0)
  | PInf | NInf => true
  | NaN => false
  end.

(** Truncation toward zero of a real, as a real. *)
Definition trunc (r : R) : R :=
  if Rltb r 0 then - IZR (Int_part (- r)) else IZR (Int_part r).

(** The rendering of a number as a string uses exponent notation
    (["5e-7"], ["1.2e+21"]) when the number is not zero and its magnitude is
    below [10^-6] or at least [10^21]; [parseInt] then reads the digit
    before the point or the [e], the first significant digit, with the
    sign. *)
Definition exponent_notation (r : R) : bool :=
  (negb (Reqb r 0) && Rltb (Rabs r) (/ 10 ^ 6)) || negb (Rltb (Rabs r) (10 ^ 21)).

Definition decimal_exponent (r : R) : Z :=
  Int_part (ln (Rabs r) / ln 10).

Definition leading_digit (r : R) : R :=
  IZR (Int_part (Rabs r / powerRZ 10 (decimal_exponent r))).

(** [parseInt(s)] where [s] is the rendering of the number [x] ([None]:
    the value is absent, and [parseInt(undefined)] is [NaN]; the rendering
    of an infinity or of [NaN] has no leading digit).  The digits are those
    of the value itself. *)
Definition parseInt (x : option number) : number :=
  match x with
  | Some (Num r) =>
      if exponent_notation r
      then Num (if Rltb r 0 then - leading_digit r else leading_digit r)
      else Num (trunc r)
  | _ => NaN
  end.

Definition finite (x : number) : Prop :=
  match x with Num _ => True | _ => False end.

End JS.

Import JS.

Declare Scope js_scope.
Delimit Scope js_scope with js.
Bind Scope js_scope with number.
Infix "+" := JS.add : js_scope.
Infix "-" := JS.sub : js_scope.
Infix "*" := JS.mul : js_scope.
Infix "/" := JS.div : js_scope.
Notation "- x" := (JS.neg x) : js_scope.
Infix "<?" := JS.lt (at level 70) : js_scope.
Infix ">?" := JS.gt (at level 70) : js_scope.
Infix "<=?" := JS.le (at level 70) : js_scope.
Infix ">=?" := JS.ge (at level 70) : js_scope.
Infix "==?" := JS.eq (at level 70) : js_scope.

Coercion Num : R >-> number.

(** ** Vectors and matrices (lines 1-80) *)

(** [Vector] is the array [[x, y]]; [Matrix] is [[ [a00, a10], [a01, a11] ]],
    an array of two vectors. *)
Definition Vector : Type := (number * number)%type.
Definition Matrix : Type := (Vector * Vector)%type.

Definition scmult (l : number) (x : Vector) : Vector :=
  ((l * fst x)%js, (l * snd x)%js).

Definition vcadd (a b : Vector) : Vector :=
  ((fst a + fst b)%js, (snd a + snd b)%js).

Definition minus (a b : Vector) : Vector :=
  ((fst a - fst b)%js, (snd a - snd b)%js).

Definition dot (a b : Vector) : number :=
  (fst a * fst b + snd a * snd b)%js.

Definition wedge (a b : Vector) : number :=
  (fst a * snd b - snd a * fst b)%js.

Definition apply (A : Matrix) (x : Vector) : Vector :=
  vcadd (scmult (fst x) (fst A)) (scmult (snd x) (snd A)).

Definition mult (A B : Matrix) : Matrix :=
  (apply A (fst B), apply A (snd B)).

(** ** Results of rendering *)

(** What [Transform.prototype.css] returns: the string
    ["matrix(a,b,c,d,e,f)"] (kept as its six numbers), [false], or, when
    the function body ends without a [return], [undefined]. *)
Inductive CssResult : Type :=
| CssMatrix (a b c d e f : number)
| CssFalse
| CssUndefined.

(** ** The surface element and the screen

    The DOM element the engine is attached to and the global [screen] are
    collaborators of the code; the fields the code reads or writes are
    recorded here.  [dataset_scrollTop] is the number whose rendering was
    last stored in [elem.dataset.scrollTop] ([None] when the attribute is
    absent).  The values assigned to [elem.style.transform] and
    [elem.style.overflow] are recorded as assigned. *)

(** The value assigned to [elem.style.transform]: ["none"] or a result of
    [css]. *)
Inductive StyleTransform : Type :=
| StyleUnset
| StyleNone                                   (* "none" *)
| StyleCss (c : CssResult).

Inductive StyleOverflow : Type :=
| OverflowUnset
| OverflowVisible                             (* "visible" *)
| OverflowScroll.                             (* "scroll" *)

Record Element : Type := mkElement {
  scrollTop : number;
  dataset_scrollTop : option number;
  scrollHeight : number;
  clientWidth : number;
  offsetLeft : number;
  offsetTop : number;
  style_transform : StyleTransform;
  style_overflow : StyleOverflow
}.

Definition set_dataset_scrollTop (v : number) (e : Element) : Element :=
  mkElement (scrollTop e) (Some v) (scrollHeight e) (clientWidth e)
            (offsetLeft e) (offsetTop e) (style_transform e) (style_overflow e).

Definition set_style (t : StyleTransform) (o : StyleOverflow) (e : Element)
  : Element :=
  mkElement (scrollTop e) (dataset_scrollTop e) (scrollHeight e) (clientWidth e)
            (offsetLeft e) (offsetTop e) t o.

(** ** Transform (lines 82-138) *)

(** The [elem] field of a Transform is either [undefined] or the element of
    the engine. *)
Inductive ElemField : Type :=
| Undefined
| TheElement.

Record Transform : Type := mkTransform {
  A : Matrix;
  b : Vector;
  elem : ElemField
}.

(** [if (css)]: a non-empty string is truthy, [false] and [undefined] are
    not. *)
Definition css_truthy (c : CssResult) : bool :=
  match c with
  | CssMatrix _ _ _ _ _ _ => true
  | _ => false
  end.

(** [Transform.prototype.css], lines 100-138.  The function assigns to
    entries of [this.A] and [this.b]; the result carries the object as the
    call leaves it.  [e] is the element [this.elem] refers to when it is
    set, [screen_height] is [screen.height]. *)
Definition css (e : Element) (screen_height : number) (T : Transform)
  : CssResult * Transform :=
  let '((a00, a01), (a10, a11)) := A T in
  let '(b0, b1) := b T in
  (* Disable zoom out *)
  let a00 := if (a00 <? 1)%js then Num 1 else a00 in
  let a11 := if (a11 <? 1)%js then Num 1 else a11 in
  match elem T with
  | TheElement =>
      let scrollTop' := parseInt (dataset_scrollTop e) in
      let st := if (scrollTop e >? 0)%js then scrollTop e else scrollTop' in
      let dy :=
        if (screen_height <=? scrollHeight e)%js
        then (scrollHeight e * a00 - screen_height - st * a00)%js
        else JS.abs (screen_height - scrollHeight e * a00)%js in
      let dx := (clientWidth e * a00 - clientWidth e)%js in
      (* Set pan borders *)
      let b1 := if (b1 >? st * a00)%js then (st * a00)%js else b1 in
      let b1 := if (b1 <? - dy)%js then (- dy)%js else b1 in
      let b0 := if (b0 >? 0)%js then Num 0 else b0 in
      let b0 := if (b0 <? - dx)%js then (- dx)%js else b0 in
      let T' := mkTransform ((a00, a01), (a10, a11)) (b0, b1) TheElement in
      if (a00 ==? 1)%js && (a11 ==? 1)%js then (CssFalse, T')
      else
        let bb := (b1 - st * a00)%js in
        (CssMatrix a00 a01 a10 a11 b0 bb, T')
  | Undefined =>
      (CssUndefined, mkTransform ((a00, a01), (a10, a11)) (b0, b1) Undefined)
  end.

(** The map a Transform stands for, [x |-> A x + b] (doc comment of the
    constructor, line 83, and the derivation above [cascade]). *)
Definition transform_at (T : Transform) (x : Vector) : Vector :=
  vcadd (apply (A T) x) (b T).

(** [cascade], lines 155-157: a new Transform, [T o U]. *)
Definition cascade (T U : Transform) (el : ElemField) : Transform :=
  mkTransform (mult (A T) (A U)) (vcadd (apply (A T) (b U)) (b T)) el.

(** ** The similarity solver (lines 159-217) *)

Definition rotate (c s : number) : Matrix :=
  ((c, s), ((- s)%js, c)).

Definition rotscale (a b : Vector) : Matrix :=
  let alen := dot a a in
  let sig := dot a b in
  let del := wedge a b in
  rotate (sig / alen)%js (del / alen)%js.

Definition justscale (a b : Vector) : Matrix :=
  let alen := JS.sqrt (dot a a) in
  let blen := JS.sqrt (dot b b) in
  let scale := (blen / alen)%js in
  rotate scale (Num 0).

Definition PointPair : Type := (Vector * Vector)%type.

Definition zoom (s d : PointPair) (rot : bool) (el : ElemField) : Transform :=
  (* Source vector. *)
  let a := minus (snd s) (fst s) in
  (* Destination vector. *)
  let b := minus (snd d) (fst d) in
  (* Rotation needed for source to dest vector. *)
  let rs := if rot then rotscale a b else justscale a b in
  (* Position of s[0] if rotation is applied. *)
  let rs0 := apply rs (fst s) in
  (* Since d[0] = rs0 + t *)
  let t := minus (fst d) rs0 in
  mkTransform rs t el.

(** ** Interpolation and identity (lines 219-257) *)

Definition avgVector (u v : Vector) (progress : number) : Vector :=
  let u1 := scmult (1 - progress)%js u in
  let v1 := scmult progress v in
  vcadd u1 v1.

Definition avgMatrix (A B : Matrix) (progress : number) : Matrix :=
  (avgVector (fst A) (fst B) progress, avgVector (snd A) (snd B) progress).

(** [Transform.avg]: the constructor is called with two arguments, so the
    [elem] field of the result is [undefined]. *)
Definition Transform_avg (Z I : Transform) (progress : number) : Transform :=
  mkTransform (avgMatrix (A Z) (A I) progress) (avgVector (b Z) (b I) progress)
              Undefined.

Definition identity : Transform :=
  mkTransform ((Num 1, Num 0), (Num 0, Num 1)) (Num 0, Num 0) Undefined.

(** ** Configuration (lines 259-285) *)

Definition defaults {X : Type} (param : option X) (val : X) : X :=
  match param with
  | None => val
  | Some p => p
  end.

Record Config : Type := mkConfig {
  pan : bool;
  rotate_cfg : bool
}.

(** [default_config(config, {pan: false, rotate: true})]; a field of the
    argument, and the argument itself, may be [undefined]. *)
Definition default_config (cfg : option (option bool * option bool))
  (cfg_def : Config) : Config :=
  let new_cfg := defaults cfg (None, None) in
  mkConfig (defaults (fst new_cfg) (pan cfg_def))
           (defaults (snd new_cfg) (rotate_cfg cfg_def)).

(** ** The store of Transform objects *)

Definition Ref : Type := nat.

Definition deref (h : list Transform) (r : Ref) : option Transform :=
  nth_error h r.

(** Assignment to the cell [r]; no cell is created. *)
Fixpoint store {X : Type} (h : list X) (r : nat) (x : X) : list X :=
  match h, r with
  | [], _ => []
  | _ :: h', O => x :: h'
  | y :: h', S r' => y :: store h' r' x
  end.

(** [new Transform(...)]: the new object gets the next free cell. *)
Definition alloc (h : list Transform) (T : Transform)
  : Ref * list Transform :=
  (length h, h ++ [T]).

(** The module-level [identity] object is allocated first. *)
Definition identity_ref : Ref := O.

(** ** The gesture engine (lines 287-468) *)

(** The closure made by one call of [reset]: the captured [Z] and the
    variable [startTime] ([None] is [null]). *)
Record ResetClosure : Type := mkReset {
  Z : Ref;
  startTime : option number
}.

(** [this.wnd]: whether [requestAnimationFrame] exists, the closures of the
    resets started so far, the frame callbacks requested and not yet run
    (each is the [step] of a reset), and the number of tap timers set. *)
Record Window : Type := mkWindow {
  requestAnimationFrame : bool;
  resets : list ResetClosure;
  frames : list nat;
  timers : nat
}.

Record Zoom : Type := mkZoom {
  heap : list Transform;
  element : Element;
  screen_height : number;
  zooming : bool;
  activeZoom : Ref;
  resultantZoom : Ref;
  srcCoords : PointPair;
  inZoom : bool;
  tapped : bool;
  config : Config;
  wnd : Window
}.

Definition set_heap (h : list Transform) (z : Zoom) : Zoom :=
  mkZoom h (element z) (screen_height z) (zooming z) (activeZoom z)
         (resultantZoom z) (srcCoords z) (inZoom z) (tapped z) (config z) (wnd z).

Definition set_element (e : Element) (z : Zoom) : Zoom :=
  mkZoom (heap z) e (screen_height z) (zooming z) (activeZoom z)
         (resultantZoom z) (srcCoords z) (inZoom z) (tapped z) (config z) (wnd z).

Definition set_zooming (v : bool) (z : Zoom) : Zoom :=
  mkZoom (heap z) (element z) (screen_height z) v (activeZoom z)
         (resultantZoom z) (srcCoords z) (inZoom z) (tapped z) (config z) (wnd z).

Definition set_activeZoom (r : Ref) (z : Zoom) : Zoom :=
  mkZoom (heap z) (element z) (screen_height z) (zooming z) r
         (resultantZoom z) (srcCoords z) (inZoom z) (tapped z) (config z) (wnd z).

Definition set_resultantZoom (r : Ref) (z : Zoom) : Zoom :=
  mkZoom (heap z) (element z) (screen_height z) (zooming z) (activeZoom z)
         r (srcCoords z) (inZoom z) (tapped z) (config z) (wnd z).

Definition set_srcCoords (p : PointPair) (z : Zoom) : Zoom :=
  mkZoom (heap z) (element z) (screen_height z) (zooming z) (activeZoom z)
         (resultantZoom z) p (inZoom z) (tapped z) (config z) (wnd z).

Definition set_inZoom (v : bool) (z : Zoom) : Zoom :=
  mkZoom (heap z) (element z) (screen_height z) (zooming z) (activeZoom z)
         (resultantZoom z) (srcCoords z) v (tapped z) (config z) (wnd z).

Definition set_tapped (v : bool) (z : Zoom) : Zoom :=
  mkZoom (heap z) (element z) (screen_height z) (zooming z) (activeZoom z)
         (resultantZoom z) (srcCoords z) (inZoom z) v (config z) (wnd z).

Definition set_wnd (w : Window) (z : Zoom) : Zoom :=
  mkZoom (heap z) (element z) (screen_height z) (zooming z) (activeZoom z)
         (resultantZoom z) (srcCoords z) (inZoom z) (tapped z) (config z) w.

(** The constructor, lines 293-336.  [srcCoords] starts as [[0, 0]]: its
    entries are numbers, not points, so every coordinate read from it is
    [undefined], which arithmetic turns into [NaN].  The constructor also
    sets the element's [transform-origin], which the code never reads. *)
Definition Zoom_new (e : Element) (screen_h : number)
  (cfg : option (option bool * option bool)) (raf : bool) : Zoom :=
  mkZoom [identity] e screen_h false identity_ref identity_ref
         ((NaN, NaN), (NaN, NaN)) false false
         (default_config cfg (mkConfig false true))
         (mkWindow raf [] [] O).

(** A touch of [evt.touches]. *)
Record Touch : Type := mkTouch {
  pageX : number;
  pageY : number
}.

(** The coordinate helpers.  Reading [t[0]] or [t[1]] beyond the end of the
    list raises a TypeError: [None]. *)
Definition getCoordsDouble (e : Element) (t : list Touch)
  : option PointPair :=
  let oX := offsetLeft e in
  let oY := offsetTop e in
  match t with
  | t0 :: t1 :: _ =>
      Some (((pageX t0 - oX)%js, (pageY t0 - oY)%js),
            ((pageX t1 - oX)%js, (pageY t1 - oY)%js))
  | _ => None
  end.

Definition getCoordsSingle (e : Element) (t : list Touch)
  : option PointPair :=
  let oX := offsetLeft e in
  let oY := offsetTop e in
  match t with
  | t0 :: _ =>
      let x := (pageX t0 - oX)%js in
      let y := (pageY t0 - oY)%js in
      Some ((x, y), ((x + 1)%js, (y + 1)%js))
  | [] => None
  end.

Definition getCoords (e : Element) (t : list Touch) : option PointPair :=
  if (1 <? length t)%nat then getCoordsDouble e t else getCoordsSingle e t.

(** A call that dereferences a missing object raises: [None]. *)
Definition bind {X Y : Type} (m : option X) (f : X -> option Y) : option Y :=
  match m with
  | Some x => f x
  | None => None
  end.

Notation "x <- m ;; k" := (bind m (fun x => k))
  (at level 61, m at next level, right associativity).

(** [this.resultantZoom.css()]: the call reads the object from the store
    and leaves it there as modified. *)
Definition css_call (z : Zoom) : option (CssResult * Zoom) :=
  T <- deref (heap z) (resultantZoom z) ;;
  let '(c, T') := css (element z) (screen_height z) T in
  Some (c, set_heap (store (heap z) (resultantZoom z) T') z).

Definition Zoom_finalize (z : Zoom) : Zoom :=
  set_activeZoom (resultantZoom z) z.

Definition Zoom_repaint (z : Zoom) : option Zoom :=
  r <- css_call z ;;
  let '(c, z) := r in
  if css_truthy c then
    let e := element z in
    let z := if (scrollTop e >? 0)%js
             then set_element (set_dataset_scrollTop (scrollTop e) e) z
             else z in
    let z := set_inZoom true z in
    r2 <- css_call z ;;
    let '(c2, z) := r2 in
    Some (set_element
            (set_style (StyleCss c2) OverflowVisible (element z)) z)
  else
    let z := set_inZoom false z in
    Some (set_element (set_style StyleNone OverflowScroll (element z)) z).

(** [previewZoom]: the result of [cascade] is a new object. *)
Definition Zoom_previewZoom (additionalZoom : Transform) (z : Zoom)
  : option Zoom :=
  active <- deref (heap z) (activeZoom z) ;;
  let '(r, h) := alloc (heap z) (cascade additionalZoom active TheElement) in
  Zoom_repaint (set_resultantZoom r (set_heap h z)).

Definition Zoom_setZoom (newZoom : Ref) (z : Zoom) : option Zoom :=
  Zoom_repaint (Zoom_finalize (set_resultantZoom newZoom z)).

(** [this.wnd.requestAnimationFrame(step)] for the [step] of reset [rid]. *)
Definition request_frame (rid : nat) (z : Zoom) : Zoom :=
  let w := wnd z in
  set_wnd (mkWindow (requestAnimationFrame w) (resets w)
                    (frames w ++ [rid]) (timers w)) z.

Definition Zoom_reset (z : Zoom) : option Zoom :=
  if requestAnimationFrame (wnd z) then
    let w := wnd z in
    let rid := length (resets w) in
    let w := mkWindow (requestAnimationFrame w)
                      (resets w ++ [mkReset (activeZoom z) None])
                      (frames w) (timers w) in
    Some (request_frame rid (set_wnd w z))
  else
    Zoom_setZoom identity_ref z.

(** The frame callback [step] of the reset [rid], called with [time]. *)
Definition step (rid : nat) (time : number) (z : Zoom) : option Zoom :=
  c <- nth_error (resets (wnd z)) rid ;;
  let start :=
    match startTime c with
    | None => time
    | Some s => if truthy s then s else time
    end in
  let w := wnd z in
  let z := set_wnd (mkWindow (requestAnimationFrame w)
                             (store (resets w) rid (mkReset (Z c) (Some start)))
                             (frames w) (timers w)) z in
  let progress := ((time - start) / 100)%js in
  if (progress >=? 1)%js then
    Zoom_setZoom identity_ref z
  else
    Zt <- deref (heap z) (Z c) ;;
    It <- deref (heap z) identity_ref ;;
    let '(r, h) := alloc (heap z) (Transform_avg Zt It progress) in
    z <- Zoom_setZoom r (set_heap h z) ;;
    Some (request_frame rid z).

(** The browser runs the oldest requested frame callback. *)
Definition run_frame (time : number) (z : Zoom) : option Zoom :=
  match frames (wnd z) with
  | [] => Some z
  | rid :: rest =>
      let w := wnd z in
      step rid time
           (set_wnd (mkWindow (requestAnimationFrame w) (resets w) rest
                              (timers w)) z)
  end.

(** The callback of the tap timer (lines 359-361). *)
Definition tap_timeout (z : Zoom) : Zoom :=
  let w := wnd z in
  set_tapped false
    (set_wnd (mkWindow (requestAnimationFrame w) (resets w) (frames w)
                       (Nat.pred (timers w))) z).

(** The listeners.  [touches] is [evt.touches] ([None] when it is
    undefined).  A listener returns the engine and whether it called
    [evt.preventDefault()]. *)
Definition touchstart (touches : option (list Touch)) (z : Zoom)
  : option (Zoom * bool) :=
  (* Prevent zoom/pan while scrolling *)
  if negb (inZoom z) && negb (zooming z) &&
     match touches with
     | None => true
     | Some t => negb (length t =? 2)%nat
     end
  then Some (z, false)
  else
    match touches with
    | None => Some (z, false)
    | Some t =>
        let '(z, do_reset) :=
          if (length t =? 2)%nat then (set_zooming true z, false)
          else if (length t =? 1)%nat then
            if negb (tapped z) then
              let w := wnd z in
              let z := set_tapped true z in
              let z := set_wnd (mkWindow (requestAnimationFrame w) (resets w)
                                         (frames w) (S (timers w))) z in
              ((if pan (config z) then set_zooming true z else z), false)
            else (set_tapped false z, true)
          else (z, false) in
        let prevented := zooming z || tapped z || do_reset in
        z <- (if zooming z
              then p <- getCoords (element z) t ;; Some (set_srcCoords p z)
              else Some z) ;;
        z <- (if do_reset then Zoom_reset z else Some z) ;;
        Some (z, prevented)
    end.

(** In the listener [this] is the parent node, whose [elem] property is
    undefined: the incremental transform is built without an element. *)
Definition touchmove (touches : option (list Touch)) (z : Zoom)
  : option (Zoom * bool) :=
  if negb (inZoom z) && negb (zooming z) then Some (z, false)
  else
    match touches with
    | None => Some (z, false)
    | Some t =>
        if negb (zooming z) then Some (z, false)
        else
          destCoords <- getCoords (element z) t ;;
          let additionalZoom :=
            zoom (srcCoords z) destCoords (rotate_cfg (config z)) Undefined in
          z <- Zoom_previewZoom additionalZoom z ;;
          Some (z, true)
    end.

Definition touchend (z : Zoom) : option (Zoom * bool) :=
  if negb (inZoom z) && negb (zooming z) then Some (z, false)
  else if zooming z then
    Some (Zoom_finalize (set_zooming false z), true)
  else Some (z, false).

(** ** The algebra and the solver on binary64 (lines 12-69, 159-217)

    The same functions on the numbers the code runs on.  A Transform is
    kept as its matrix and translation. *)

Module B64.

Import PrimFloat.

Definition Vector : Type := (float * float)%type.
Definition Matrix : Type := (Vector * Vector)%type.

Definition scmult (l : float) (x : Vector) : Vector :=
  ((l * fst x)%float, (l * snd x)%float).

Definition vcadd (a b : Vector) : Vector :=
  ((fst a + fst b)%float, (snd a + snd b)%float).

Definition minus (a b : Vector) : Vector :=
  ((fst a - fst b)%float, (snd a - snd b)%float).

Definition dot (a b : Vector) : float :=
  (fst a * fst b + snd a * snd b)%float.

Definition wedge (a b : Vector) : float :=
  (fst a * snd b - snd a * fst b)%float.

Definition apply (A : Matrix) (x : Vector) : Vector :=
  vcadd (scmult (fst x) (fst A)) (scmult (snd x) (snd A)).

Definition rotate (c s : float) : Matrix :=
  ((c, s), ((- s)%float, c)).

Definition rotscale (a b : Vector) : Matrix :=
  let alen := dot a a in
  let sig := dot a b in
  let del := wedge a b in
  rotate (sig / alen)%float (del / alen)%float.

Definition justscale (a b : Vector) : Matrix :=
  let alen := sqrt (dot a a) in
  let blen := sqrt (dot b b) in
  let scale := (blen / alen)%float in
  rotate scale 0%float.

Definition zoom (s d : Vector * Vector) (rot : bool) : Matrix * Vector :=
  let a := minus (snd s) (fst s) in
  let b := minus (snd d) (fst d) in
  let rs := if rot then rotscale a b else justscale a b in
  let rs0 := apply rs (fst s) in
  let t := minus (fst d) rs0 in
  (rs, t).

(** The map [x |-> A x + b]. *)
Definition transform_at (T : Matrix * Vector) (x : Vector) : Vector :=
  vcadd (apply (fst T) x) (snd T).




End B64.

(** ** Values with real entries

    The specification takes vectors, matrices and Transforms over the real
    numbers: all their entries are finite. *)

Definition finiteV (v : Vector) : Prop := finite (fst v) /\ finite (snd v).
Definition finiteM (M : Matrix) : Prop := finiteV (fst M) /\ finiteV (snd M).
Definition finiteT (T : Transform) : Prop := finiteM (A T) /\ finiteV (b T).

Definition finiteP (p : PointPair) : Prop := finiteV (fst p) /\ finiteV (snd p).

(** ** Sample values *)

Definition T_sample : Transform :=
  mkTransform ((Num 2, Num 1), (Num (-1), Num 2)) (Num 3, Num (-4)) TheElement.

Definition s_sample : PointPair := ((Num 1, Num 2), (Num 4, Num 6)).
Definition d_sample : PointPair := ((Num 0, Num 1), (Num (-3), Num 5)).

(** A transform that zooms out to one half, with no element. *)
Definition T_half : Transform :=
  mkTransform ((Num (1/2), Num 0), (Num 0, Num (1/2))) (Num 0, Num 0) Undefined.

(** A transform that zooms to twice the size, with no element: what
    [Transform.avg(Z, identity, 0.5)] is for [Z] of scale 3. *)
Definition T_double : Transform :=
  mkTransform ((Num 2, Num 0), (Num 0, Num 2)) (Num 0, Num 0) Undefined.

Definition T_triple : Transform :=
  mkTransform ((Num 3, Num 0), (Num 0, Num 3)) (Num 0, Num 0) TheElement.

(** A surface of 300 by 1000 pixels at the page origin, scrolled down by
    120 pixels, on a screen 800 pixels high. *)
Definition e_sample : Element :=
  mkElement (Num 120) None (Num 1000) (Num 300) (Num 0) (Num 0)
            StyleUnset OverflowUnset.

(** A transform at native scale, panned 5 pixels to the right, on the
    element. *)
Definition T_pan : Transform :=
  mkTransform ((Num 1, Num 0), (Num 0, Num 1)) (Num 5, Num 0) TheElement.

Definition screen_sample : number := Num 800.

(** The engine in a two-finger session begun at (0,0) and (10,0): what
    [touchstart] makes of a new engine. *)
Definition z_session : Zoom :=
  mkZoom [identity] e_sample screen_sample true identity_ref identity_ref
         ((Num 0, Num 0), (Num 10, Num 0)) false false
         (mkConfig false true) (mkWindow true [] [] O).

Definition touches_sample : list Touch :=
  [mkTouch (Num 0) (Num 0); mkTouch (Num 20) (Num 0)].

(** The engine in a two-finger session begun with both fingers on the
    pixel (5,5). *)
Definition z_degenerate : Zoom :=
  mkZoom [identity] e_sample screen_sample true identity_ref identity_ref
         ((Num 5, Num 5), (Num 5, Num 5)) false false
         (mkConfig false true) (mkWindow true [] [] O).

Definition touches_apart : list Touch :=
  [mkTouch (Num 1) (Num 1); mkTouch (Num 2) (Num 2)].

(** The engine zoomed to three times the size, after the double tap that
    started an animated reset: one frame callback is pending. *)
Definition z_resetting : Zoom :=
  mkZoom [identity; T_triple] e_sample screen_sample false 1%nat 1%nat
         ((Num 0, Num 0), (Num 10, Num 0)) true false
         (mkConfig false true)
         (mkWindow true [mkReset 1%nat None] [O] 1%nat).

(** The uniform scale by 2 about the origin. *)
Definition T_scale2 (el : ElemField) : Transform :=
  mkTransform ((Num 2, Num 0), (Num 0, Num 2)) (Num 0, Num 0) el.

(** The Transform all of whose entries are [NaN]. *)
Definition T_NaN (el : ElemField) : Transform :=
  mkTransform ((NaN, NaN), (NaN, NaN)) (NaN, NaN) el.

(** ** Vocabulary of the statements *)

(** The scale floor of [css]: an entry below 1 is replaced by 1. *)
Definition floor1 (x : number) : number :=
  if (x <? 1)%js then Num 1 else x.

(** The diagonal entries of a descriptor are at least 1; [false] and
    [undefined] carry no entries. *)
Definition descriptor_scale_ok (c : CssResult) : Prop :=
  match c with
  | CssMatrix a _ _ d _ _ => (1 <=? a)%js = true /\ (1 <=? d)%js = true
  | CssFalse | CssUndefined => True
  end.

(** A number that is zero or [NaN]: what [x - x] is for every [x]. *)
Definition zeroish (x : number) : Prop := x = Num 0 \/ x = NaN.

(** The descriptor ["matrix(NaN,NaN,NaN,NaN,NaN,NaN)"]. *)
Definition css_NaN_descriptor : CssResult := CssMatrix NaN NaN NaN NaN NaN NaN.

(** ** Vocabulary of the further properties *)

(** The parts of the pan clamp of [css] (lines 108-127), named: the scroll
    offset in use, the two overscroll bounds, and the two-sided clamp in the
    order the code applies it (upper bound first). *)
Definition pan_st (e : Element) : number :=
  if (scrollTop e >? 0)%js then scrollTop e
  else parseInt (dataset_scrollTop e).

Definition pan_dy (e : Element) (sh a00 : number) : number :=
  if (sh <=? scrollHeight e)%js
  then (scrollHeight e * a00 - sh - pan_st e * a00)%js
  else JS.abs (sh - scrollHeight e * a00)%js.

Definition pan_dx (e : Element) (a00 : number) : number :=
  (clientWidth e * a00 - clientWidth e)%js.

Definition clamp (lo hi x : number) : number :=
  let x := if (x >? hi)%js then hi else x in
  if (x <? lo)%js then lo else x.

(** An integer pixel coordinate: on these, sums and differences are exact
    on binary64 too. *)
Definition pixel (n : BinNums.Z) : Prop := (Z.abs n <= 2 ^ 31)%Z.

(** The references the engine holds point into the store, whose first
    object is the identity. *)
Definition wf (z : Zoom) : Prop :=
  deref (heap z) identity_ref = Some identity /\
  (activeZoom z < length (heap z))%nat /\
  (resultantZoom z < length (heap z))%nat /\
  Forall (fun c => (Z c < length (heap z))%nat) (resets (wnd z)) /\
  Forall (fun rid => (rid < length (resets (wnd z)))%nat) (frames (wnd z)).

(** What the browser delivers to the engine.  A touch list is never empty
    in an event the browser sends. *)
Inductive Event : Type :=
| TouchStart (t : list Touch)
| TouchMove (t : list Touch)
| TouchEnd
| Frame (time : number)
| TapTimeout
| Relayout (e : Element).

Definition event_ok (ev : Event) : Prop :=
  match ev with
  | TouchStart t | TouchMove t => t <> []
  | _ => True
  end.

Definition run_event (ev : Event) (z : Zoom) : option Zoom :=
  match ev with
  | TouchStart t => r <- touchstart (Some t) z ;; Some (fst r)
  | TouchMove t => r <- touchmove (Some t) z ;; Some (fst r)
  | TouchEnd => r <- touchend z ;; Some (fst r)
  | Frame time => run_frame time z
  | TapTimeout => Some (tap_timeout z)
  | Relayout e => Some (set_element e z)
  end.

Fixpoint run_events (evs : list Event) (z : Zoom) : option Zoom :=
  match evs with
  | [] => Some z
  | ev :: evs' => z' <- run_event ev z ;; run_events evs' z'
  end.

(** One finger down at (50,60), and at (52,61). *)
Definition touch_one : list Touch := [mkTouch (Num 50) (Num 60)].
Definition touch_one' : list Touch := [mkTouch (Num 52) (Num 61)].

(** A pinch, a double tap and the frames of the reset it starts. *)
Definition events_sample : list Event :=
  [TouchStart [mkTouch (Num 0) (Num 0); mkTouch (Num 10) (Num 0)];
   TouchMove touches_sample; TouchEnd;
   TouchStart touch_one; TouchStart touch_one';
   Frame (Num 16); Frame (Num 200); TapTimeout].

(** The engine zoomed in and at rest: no session, no tap pending. *)
Definition z_zoomed (raf : bool) : Zoom :=
  mkZoom [identity; T_triple] e_sample screen_sample false 1%nat 1%nat
         ((Num 0, Num 0), (Num 10, Num 0)) true false
         (mkConfig false true) (mkWindow raf [] [] O).


(** Two engine states with the same Transforms, references, frame
    queue and presentation: they may differ in the session flags, the
    source pair and the tap timers. *)
Definition same_transforms (z z' : Zoom) : Prop :=
  heap z' = heap z /\ activeZoom z' = activeZoom z /\
  resultantZoom z' = resultantZoom z /\
  requestAnimationFrame (wnd z') = requestAnimationFrame (wnd z) /\
  resets (wnd z') = resets (wnd z) /\ frames (wnd z') = frames (wnd z) /\
  element z' = element z /\ inZoom z' = inZoom z /\
  screen_height z' = screen_height z /\ config z' = config z.

(** * Properties *)

(** ** Deciding the comparisons of the number model *)

Lemma Rltb_true (x y : R) : x < y -> Rltb x y = true.
Proof. intros H. unfold Rltb. destruct (Rlt_dec x y); [reflexivity | contradiction]. Qed.

Lemma Rltb_false (x y : R) : ~ x < y -> Rltb x y = false.
Proof. intros H. unfold Rltb. destruct (Rlt_dec x y); [contradiction | reflexivity]. Qed.

Lemma Reqb_true (x y : R) : x = y -> Reqb x y = true.
Proof. intros H. unfold Reqb. destruct (Req_dec_T x y); [reflexivity | contradiction]. Qed.

Lemma Reqb_false (x y : R) : x <> y -> Reqb x y = false.
Proof. intros H. unfold Reqb. destruct (Req_dec_T x y); [contradiction | reflexivity]. Qed.

Lemma Rltb_spec (x y : R) : Rltb x y = true <-> x < y.
Proof.
  unfold Rltb. destruct (Rlt_dec x y); split; intros; auto; discriminate.
Qed.

Lemma Reqb_spec (x y : R) : Reqb x y = true <-> x = y.
Proof.
  unfold Reqb. destruct (Req_dec_T x y); split; intros; auto; discriminate.
Qed.

(** Evaluates the comparisons of closed (or linear) real expressions. *)
Ltac js_decide :=
  repeat first
    [ rewrite Rltb_true by lra
    | rewrite Rltb_false by lra
    | rewrite Reqb_true by lra
    | rewrite Reqb_false by lra ].

Ltac js_eval :=
  cbn -[Rltb Reqb Rplus Rminus Rmult Rdiv Ropp Rinv IZR Rabs];
  repeat (js_decide;
          cbn -[Rltb Reqb Rplus Rminus Rmult Rdiv Ropp Rinv IZR Rabs]).

(** ** Finite values *)

Lemma finite_inv (x : number) : finite x -> exists r, x = Num r.
Proof. destruct x; simpl; intros H; try contradiction. eauto. Qed.

Lemma finiteV_inv (v : Vector) :
  finiteV v -> exists x y, v = (Num x, Num y).
Proof.
  destruct v as [x y]. intros [Hx Hy]. simpl in *.
  destruct (finite_inv _ Hx) as [rx ->]. destruct (finite_inv _ Hy) as [ry ->].
  eauto.
Qed.

Lemma finiteM_inv (M : Matrix) :
  finiteM M ->
  exists a00 a01 a10 a11, M = ((Num a00, Num a01), (Num a10, Num a11)).
Proof.
  destruct M as [u v]. intros [Hu Hv]. simpl in *.
  destruct (finiteV_inv _ Hu) as (a & c & ->).
  destruct (finiteV_inv _ Hv) as (d & f & ->). eauto.
Qed.

Lemma Num_eq (x y : R) : x = y -> Num x = Num y.
Proof. intros ->. reflexivity. Qed.

Lemma vec_eq (x y x' y' : R) : x = x' -> y = y' -> (Num x, Num y) = (Num x', Num y').
Proof. intros -> ->. reflexivity. Qed.

(** ** Composition with the identity *)

Lemma apply_finite (a00 a01 a10 a11 x y : R) :
  apply ((Num a00, Num a01), (Num a10, Num a11)) (Num x, Num y)
  = (Num (x * a00 + y * a10), Num (x * a01 + y * a11)).
Proof. reflexivity. Qed.

(** C8.  For every Transform [T] (its entries real numbers), composing with
    the identity transform on either side returns [T]: [cascade(T, identity)]
    and [cascade(identity, T)] both have the matrix and the translation of
    [T]. *)
Theorem cascade_identity (T : Transform) (el : ElemField) :
  finiteT T ->
  A (cascade T identity el) = A T /\ b (cascade T identity el) = b T /\
  A (cascade identity T el) = A T /\ b (cascade identity T el) = b T.
Proof.
  intros [HA Hb]. destruct T as [M v e]. simpl in HA, Hb.
  destruct (finiteM_inv _ HA) as (a00 & a01 & a10 & a11 & ->).
  destruct (finiteV_inv _ Hb) as (b0 & b1 & ->).
  unfold cascade, identity, mult; simpl A; simpl b; simpl fst; simpl snd.
  rewrite !apply_finite.
  repeat split.
  - f_equal; apply vec_eq; ring.
  - unfold vcadd; simpl. apply vec_eq; ring.
  - f_equal; apply vec_eq; ring.
  - unfold vcadd; simpl. apply vec_eq; ring.
Qed.

Lemma T_sample_finite : finiteT T_sample.
Proof. repeat split. Qed.

Lemma cascade_identity_witness :
  A (cascade T_sample identity TheElement) = A T_sample /\
  b (cascade T_sample identity TheElement) = b T_sample /\
  A (cascade identity T_sample TheElement) = A T_sample /\
  b (cascade identity T_sample TheElement) = b T_sample.
Proof. apply (cascade_identity T_sample TheElement). exact T_sample_finite. Defined.

(** ** Interpolation end points *)

(** C9.  Transform interpolation hits its end points: for Transforms [Z]
    and [I] (their entries real numbers), [Transform.avg(Z, I, 0)] has the
    matrix and translation of [Z] and [Transform.avg(Z, I, 1)] those of
    [I]. *)
Theorem Transform_avg_endpoints (Z0 I0 : Transform) :
  finiteT Z0 -> finiteT I0 ->
  A (Transform_avg Z0 I0 (Num 0)) = A Z0 /\
  b (Transform_avg Z0 I0 (Num 0)) = b Z0 /\
  A (Transform_avg Z0 I0 (Num 1)) = A I0 /\
  b (Transform_avg Z0 I0 (Num 1)) = b I0.
Proof.
  intros [HZA HZb] [HIA HIb].
  destruct Z0 as [ZA Zb Ze], I0 as [IA Ib Ie]. simpl in *.
  destruct (finiteM_inv _ HZA) as (z00 & z01 & z10 & z11 & ->).
  destruct (finiteV_inv _ HZb) as (zb0 & zb1 & ->).
  destruct (finiteM_inv _ HIA) as (i00 & i01 & i10 & i11 & ->).
  destruct (finiteV_inv _ HIb) as (ib0 & ib1 & ->).
  unfold avgMatrix, avgVector, vcadd, scmult; simpl.
  repeat split; repeat f_equal; ring.
Qed.

Lemma Transform_avg_endpoints_witness :
  A (Transform_avg T_sample identity (Num 0)) = A T_sample /\
  b (Transform_avg T_sample identity (Num 0)) = b T_sample /\
  A (Transform_avg T_sample identity (Num 1)) = A identity /\
  b (Transform_avg T_sample identity (Num 1)) = b identity.
Proof.
  apply (Transform_avg_endpoints T_sample identity); repeat split.
Defined.

(** ** The similarity solver maps the source pair onto the destination pair *)

Lemma sum_squares_nonzero (x y : R) : x <> 0 \/ y <> 0 -> x * x + y * y <> 0.
Proof. intros [H | H]; nra. Qed.

Lemma points_differ (x0 y0 x1 y1 : R) :
  (Num x0, Num y0) <> (Num x1, Num y1) -> x1 - x0 <> 0 \/ y1 - y0 <> 0.
Proof.
  intros H.
  destruct (Req_dec_T x0 x1) as [-> | Hx]; [ | left; lra].
  destruct (Req_dec_T y0 y1) as [-> | Hy]; [ | right; lra].
  exfalso; apply H; reflexivity.
Qed.




(** ** Rendering: [Transform.prototype.css] *)

(** What [css] leaves in the matrix of the object: the diagonal entries
    floored at 1, the other two as they were. *)
Lemma css_A (e : Element) (sh : number) (T : Transform) :
  A (snd (css e sh T))
  = ((floor1 (fst (fst (A T))), snd (fst (A T))),
     (fst (snd (A T)), floor1 (snd (snd (A T))))).
Proof.
  destruct T as [[[a00 a01] [a10 a11]] [b0 b1] el].
  unfold css, floor1; simpl A; simpl b; simpl elem; simpl fst; simpl snd.
  destruct el; [reflexivity | ].
  match goal with |- context [if ?c && ?d then _ else _] => destruct (c && d) end;
    reflexivity.
Qed.

Lemma css_elem (e : Element) (sh : number) (T : Transform) :
  elem (snd (css e sh T)) = elem T.
Proof.
  destruct T as [[[a00 a01] [a10 a11]] [b0 b1] el].
  unfold css; simpl A; simpl b; simpl elem.
  destruct el; [reflexivity | ].
  match goal with |- context [if ?c && ?d then _ else _] => destruct (c && d) end;
    reflexivity.
Qed.

Lemma css_no_element (e : Element) (sh : number) (T : Transform) :
  elem T = Undefined ->
  fst (css e sh T) = CssUndefined /\ b (snd (css e sh T)) = b T.
Proof.
  destruct T as [[[a00 a01] [a10 a11]] [b0 b1] el]. simpl. intros ->.
  split; reflexivity.
Qed.

Lemma floor1_idem (x : number) : floor1 (floor1 x) = floor1 x.
Proof.
  unfold floor1. destruct (x <? 1)%js eqn:E.
  - simpl. rewrite Rltb_false by lra. reflexivity.
  - rewrite E. reflexivity.
Qed.

Lemma floor1_ge_1 (x : number) : x <> NaN -> (1 <=? floor1 x)%js = true.
Proof.
  unfold floor1. destruct x as [r | | |]; simpl; intros H.
  - destruct (Rltb r 1) eqn:E; simpl.
    + rewrite Rltb_false by lra. reflexivity.
    + rewrite E. reflexivity.
  - reflexivity.
  - rewrite Rltb_false by lra. reflexivity.
  - contradiction H; reflexivity.
Qed.

Lemma lt_not_NaN (x y : number) : (x <? y)%js = true -> x <> NaN.
Proof. intros H ->. discriminate H. Qed.

(** A descriptor carries the floored diagonal entries. *)
Lemma css_descriptor_entries (e : Element) (sh : number) (T : Transform)
  (a c0 c1 d e0 f : number) :
  fst (css e sh T) = CssMatrix a c0 c1 d e0 f ->
  a = floor1 (fst (fst (A T))) /\ d = floor1 (snd (snd (A T))).
Proof.
  destruct T as [[[a00 a01] [a10 a11]] [b0 b1] el].
  unfold css, floor1; simpl A; simpl b; simpl elem; simpl fst; simpl snd.
  destruct el; [discriminate | ].
  match goal with |- context [if ?c && ?d then _ else _] => destruct (c && d) end;
    simpl; [discriminate | ].
  intros H. injection H as <- _ _ <- _ _. split; reflexivity.
Qed.

(** The scale floor for every Transform whose diagonal entries are
    numbers. *)
Lemma css_descriptor_scale_ge_1 (e : Element) (sh : number) (T : Transform) :
  fst (fst (A T)) <> NaN -> snd (snd (A T)) <> NaN ->
  descriptor_scale_ok (fst (css e sh T)).
Proof.
  intros H0 H1.
  destruct (fst (css e sh T)) as [a c0 c1 d e0 f | | ] eqn:E; simpl; trivial.
  destruct (css_descriptor_entries _ _ _ _ _ _ _ _ _ E) as [-> ->].
  split; apply floor1_ge_1; assumption.
Qed.

(** C6.  For every Transform whose matrix diagonal entries are below 1,
    rendering yields a result whose effective diagonal scale entries are at
    least 1: the object is left with both diagonal entries equal to 1, and
    the result is a descriptor with diagonal entries at least 1 or no
    descriptor. *)
Theorem css_scale_floor (e : Element) (sh : number) (T : Transform) :
  (fst (fst (A T)) <? 1)%js = true ->
  (snd (snd (A T)) <? 1)%js = true ->
  descriptor_scale_ok (fst (css e sh T)) /\
  fst (fst (A (snd (css e sh T)))) = Num 1 /\
  snd (snd (A (snd (css e sh T)))) = Num 1.
Proof.
  intros H0 H1. split.
  - apply css_descriptor_scale_ge_1; eapply lt_not_NaN; eassumption.
  - rewrite css_A. simpl. unfold floor1. rewrite H0, H1. split; reflexivity.
Qed.

Lemma css_scale_floor_witness :
  descriptor_scale_ok (fst (css e_sample screen_sample T_half)) /\
  fst (fst (A (snd (css e_sample screen_sample T_half)))) = Num 1 /\
  snd (snd (A (snd (css e_sample screen_sample T_half)))) = Num 1.
Proof.
  apply (css_scale_floor e_sample screen_sample T_half);
    simpl; apply Rltb_true; lra.
Defined.

(** C7.  For a Transform with both diagonal scale entries exactly 1 (the
    identity is one) that has an element, rendering yields [false], the
    result that signals native scroll mode, not a descriptor. *)
Theorem css_unit_scale_native (e : Element) (sh : number) (T : Transform) :
  elem T = TheElement ->
  fst (fst (A T)) = Num 1 -> snd (snd (A T)) = Num 1 ->
  fst (css e sh T) = CssFalse.
Proof.
  destruct T as [[[a00 a01] [a10 a11]] [b0 b1] el]. simpl.
  intros -> -> ->.
  cbv beta iota zeta delta [css A b elem].
  assert (H1 : (Num 1 <? 1)%js = false) by (simpl; apply Rltb_false; lra).
  assert (H2 : (Num 1 ==? 1)%js = true) by (simpl; apply Reqb_true; reflexivity).
  rewrite H1, H2. reflexivity.
Qed.

Lemma css_unit_scale_native_witness :
  fst (css e_sample screen_sample
           (mkTransform (A identity) (b identity) TheElement)) = CssFalse.
Proof.
  apply (css_unit_scale_native e_sample screen_sample
           (mkTransform (A identity) (b identity) TheElement));
    reflexivity.
Defined.

(** C3 (as the code has it).  Producing the render descriptor modifies the
    Transform in place: [css] overwrites each diagonal entry of [A] that is
    below 1 with 1 and leaves the other two entries of [A] and the element
    as they were; without an element it leaves [b] as it was, and with one
    it overwrites [b] with its pan-clamped value: [b[0]] clamped to at most
    0 and then to at least [-dx], [b[1]] clamped to at most [st * A[0][0]]
    and then to at least [-dy], for the floored [A[0][0]] and the bounds
    [dx], [dy], [st] of lines 109-122. *)
Theorem css_in_place_effect (e : Element) (sh : number) (T : Transform) :
  A (snd (css e sh T))
  = ((floor1 (fst (fst (A T))), snd (fst (A T))),
     (fst (snd (A T)), floor1 (snd (snd (A T))))) /\
  elem (snd (css e sh T)) = elem T /\
  b (snd (css e sh (mkTransform (A T) (b T) Undefined))) = b T /\
  b (snd (css e sh (mkTransform (A T) (b T) TheElement)))
  = (clamp (- pan_dx e (floor1 (fst (fst (A T)))))%js (Num 0) (fst (b T)),
     clamp (- pan_dy e sh (floor1 (fst (fst (A T)))))%js
           (pan_st e * floor1 (fst (fst (A T))))%js (snd (b T))).
Proof.
  split; [apply css_A | split; [apply css_elem | split]].
  - apply (css_no_element e sh (mkTransform (A T) (b T) Undefined)).
    reflexivity.
  - destruct T as [[[a00 a01] [a10 a11]] [b0 b1] el].
    unfold css, floor1, clamp, pan_dx, pan_dy, pan_st.
    cbv beta iota zeta delta [A b elem fst snd].
    match goal with
    | |- context [if ?c && ?d then (CssFalse, _) else _] => destruct (c && d)
    end; reflexivity.
Qed.

(** C3 fails as stated: rendering [T_half] overwrites its matrix, and
    rendering [T_pan] overwrites its translation. *)
Lemma css_modifies_transform :
  A (snd (css e_sample screen_sample T_half))
    = ((Num 1, Num 0), (Num 0, Num 1)) /\
  A (snd (css e_sample screen_sample T_half)) <> A T_half /\
  b (snd (css e_sample screen_sample T_pan)) = (Num 0, Num 0) /\
  b (snd (css e_sample screen_sample T_pan)) <> b T_pan.
Proof.
  assert (HA : A (snd (css e_sample screen_sample T_half))
               = ((Num 1, Num 0), (Num 0, Num 1))).
  { rewrite css_A. unfold floor1, T_half. js_eval. reflexivity. }
  assert (Hb : b (snd (css e_sample screen_sample T_pan)) = (Num 0, Num 0)).
  { unfold css, T_pan, e_sample, screen_sample, JS.gt. js_eval. reflexivity. }
  repeat split; trivial.
  - rewrite HA. unfold T_half. simpl. intros H. injection H as H1 H2. lra.
  - rewrite Hb. unfold T_pan. simpl. intros H. injection H as H1. lra.
Qed.

(** C4 (as the code has it).  For every Transform with no element,
    rendering skips all pan clamping, floors the diagonal scale entries in
    the object, and returns no descriptor: the function ends without a
    [return], so the result is [undefined]. *)
Theorem css_without_element (e : Element) (sh : number) (T : Transform) :
  elem T = Undefined ->
  fst (css e sh T) = CssUndefined /\
  b (snd (css e sh T)) = b T /\
  A (snd (css e sh T))
  = ((floor1 (fst (fst (A T))), snd (fst (A T))),
     (fst (snd (A T)), floor1 (snd (snd (A T))))).
Proof.
  intros H. destruct (css_no_element e sh T H) as [H1 H2].
  repeat split; trivial. apply css_A.
Qed.

Lemma css_without_element_witness :
  fst (css e_sample screen_sample T_double) = CssUndefined /\
  b (snd (css e_sample screen_sample T_double)) = b T_double /\
  A (snd (css e_sample screen_sample T_double))
  = ((floor1 (Num 2), Num 0), (Num 0, floor1 (Num 2))).
Proof.
  apply (css_without_element e_sample screen_sample T_double). reflexivity.
Defined.

(** C4 fails as stated: [T_double] has no element and rendering it returns
    no descriptor. *)
Lemma css_without_element_no_descriptor :
  elem T_double = Undefined /\
  fst (css e_sample screen_sample T_double) = CssUndefined /\
  css_truthy (fst (css e_sample screen_sample T_double)) = false.
Proof. repeat split. Qed.

(** ** The store *)

Lemma deref_alloc_old (h : list Transform) (T : Transform) (r : Ref) :
  (r < length h)%nat -> deref (snd (alloc h T)) r = deref h r.
Proof. intros H. unfold deref, alloc; simpl. apply nth_error_app1. exact H. Qed.

Lemma deref_alloc_new (h : list Transform) (T : Transform) :
  deref (snd (alloc h T)) (fst (alloc h T)) = Some T.
Proof.
  unfold deref, alloc; simpl. rewrite nth_error_app2 by lia.
  rewrite Nat.sub_diag. reflexivity.
Qed.

Lemma length_store {X : Type} (h : list X) (r : nat) (x : X) :
  length (store h r x) = length h.
Proof.
  revert r. induction h as [ | y h IH]; intros [ | r]; simpl; auto.
Qed.

Lemma nth_error_store_same {X : Type} (h : list X) (r : nat) (x : X) :
  (r < length h)%nat -> nth_error (store h r x) r = Some x.
Proof.
  revert r. induction h as [ | y h IH]; intros [ | r]; simpl; intros H;
    try lia; auto. apply IH. lia.
Qed.

Lemma nth_error_store_other {X : Type} (h : list X) (r r' : nat) (x : X) :
  r <> r' -> nth_error (store h r x) r' = nth_error h r'.
Proof.
  revert r r'. induction h as [ | y h IH]; intros [ | r] [ | r'] H; simpl;
    auto; try congruence.
Qed.

Lemma deref_Some_lt (h : list Transform) (r : Ref) (T : Transform) :
  deref h r = Some T -> (r < length h)%nat.
Proof. intros H. apply nth_error_Some. unfold deref in H. congruence. Qed.

Lemma lt_deref_Some (h : list Transform) (r : Ref) :
  (r < length h)%nat -> exists T, deref h r = Some T.
Proof.
  intros H. unfold deref. destruct (nth_error h r) eqn:E; eauto.
  apply nth_error_None in E. lia.
Qed.

(** ** The engine: what a repaint touches *)

#[local] Arguments JS.lt : simpl never.
#[local] Arguments JS.gt : simpl never.
#[local] Arguments JS.le : simpl never.
#[local] Arguments JS.ge : simpl never.
#[local] Arguments JS.eq : simpl never.
#[local] Arguments css : simpl never.
#[local] Arguments deref : simpl never.

(** Two engine states agree on everything but the presentation ([inZoom],
    the element) and the store. *)
Definition same_session (z z' : Zoom) : Prop :=
  zooming z' = zooming z /\ activeZoom z' = activeZoom z /\
  resultantZoom z' = resultantZoom z /\ srcCoords z' = srcCoords z /\
  tapped z' = tapped z /\ config z' = config z /\ wnd z' = wnd z /\
  screen_height z' = screen_height z.

(** [z'] has the objects of [z], all unchanged but the one at [r]. *)
Definition same_objects_but (r : Ref) (z z' : Zoom) : Prop :=
  length (heap z') = length (heap z) /\
  forall r', r' <> r -> deref (heap z') r' = deref (heap z) r'.

(** The surface is presented in native scroll mode. *)
Definition native_scroll (z : Zoom) : Prop :=
  inZoom z = false /\
  style_transform (element z) = StyleNone /\
  style_overflow (element z) = OverflowScroll.

Lemma css_call_ok (z : Zoom) (T : Transform) :
  deref (heap z) (resultantZoom z) = Some T ->
  css_call z
  = Some (fst (css (element z) (screen_height z) T),
          set_heap (store (heap z) (resultantZoom z)
                          (snd (css (element z) (screen_height z) T))) z).
Proof.
  intros H. unfold css_call. rewrite H. simpl.
  destruct (css (element z) (screen_height z) T); reflexivity.
Qed.

(** A repaint of a state whose [resultantZoom] is an object of the store
    returns; it may modify that object, and no other. *)
Lemma Zoom_repaint_frame (z : Zoom) (T : Transform) :
  deref (heap z) (resultantZoom z) = Some T ->
  exists z', Zoom_repaint z = Some z' /\ same_session z z' /\
             same_objects_but (resultantZoom z) z z'.
Proof.
  intros H. pose proof (deref_Some_lt _ _ _ H) as Hlt.
  unfold Zoom_repaint. rewrite (css_call_ok z T H). simpl.
  destruct (css_truthy (fst (css (element z) (screen_height z) T))).
  - match goal with
    | |- context [css_call ?z1] =>
        assert (H1 : deref (heap z1) (resultantZoom z1)
                     = Some (snd (css (element z) (screen_height z) T)))
    end.
    { destruct (scrollTop (element z) >? 0)%js; simpl;
        apply nth_error_store_same; exact Hlt. }
    rewrite (css_call_ok _ _ H1). simpl.
    eexists; split; [reflexivity | ].
    destruct (scrollTop (element z) >? 0)%js; simpl;
      (split; [repeat split | split; simpl;
         [rewrite !length_store; reflexivity
         | intros r' Hr'; unfold deref;
           rewrite !nth_error_store_other by congruence; reflexivity]]).
  - eexists; split; [reflexivity | ].
    split; [repeat split | split; simpl].
    + apply length_store.
    + intros r' Hr'. unfold deref.
      rewrite nth_error_store_other by congruence. reflexivity.
Qed.

(** A repaint of a state whose [resultantZoom] has no element ends in
    native scroll mode. *)
Lemma Zoom_repaint_no_element (z : Zoom) (T : Transform) :
  deref (heap z) (resultantZoom z) = Some T ->
  elem T = Undefined ->
  exists z', Zoom_repaint z = Some z' /\ native_scroll z' /\
             same_session z z' /\ same_objects_but (resultantZoom z) z z'.
Proof.
  intros H He.
  destruct (Zoom_repaint_frame z T H) as (z' & Hz' & Hs & Ho).
  exists z'. repeat split; try apply Hs; try apply Ho; trivial;
  revert Hz'; unfold Zoom_repaint; rewrite (css_call_ok z T H); simpl;
  destruct (css_no_element (element z) (screen_height z) T He) as [-> _];
  simpl; intros Hz'; injection Hz' as <-; reflexivity.
Qed.

Lemma Zoom_repaint_Some_inv (z z' : Zoom) :
  Zoom_repaint z = Some z' ->
  same_session z z' /\ same_objects_but (resultantZoom z) z z'.
Proof.
  intros H.
  destruct (deref (heap z) (resultantZoom z)) as [T | ] eqn:E.
  - destruct (Zoom_repaint_frame z T E) as (z1 & H1 & Hs & Ho).
    rewrite H1 in H. injection H as <-. split; assumption.
  - unfold Zoom_repaint, css_call in H. rewrite E in H. discriminate H.
Qed.

Lemma getCoords_nonempty (e : Element) (t : list Touch) :
  t <> [] -> exists p, getCoords e t = Some p.
Proof.
  intros H. unfold getCoords, getCoordsDouble, getCoordsSingle.
  destruct t as [ | t0 [ | t1 t]]; simpl; [contradiction | eauto | eauto].
Qed.

(** ** [activeZoom] between commits *)

(** A preview puts its result in a new object and leaves every object of
    the store, and [activeZoom], as they were. *)
Lemma Zoom_previewZoom_frame (additionalZoom : Transform) (z : Zoom) :
  (activeZoom z < length (heap z))%nat ->
  exists z', Zoom_previewZoom additionalZoom z = Some z' /\
    zooming z' = zooming z /\ activeZoom z' = activeZoom z /\
    srcCoords z' = srcCoords z /\ tapped z' = tapped z /\
    config z' = config z /\ wnd z' = wnd z /\
    resultantZoom z' = length (heap z) /\
    (forall r, (r < length (heap z))%nat ->
               deref (heap z') r = deref (heap z) r).
Proof.
  intros Hlt. destruct (lt_deref_Some _ _ Hlt) as [active Ha].
  unfold Zoom_previewZoom. rewrite Ha. simpl.
  set (T := cascade additionalZoom active TheElement).
  set (z1 := set_resultantZoom (length (heap z)) (set_heap (heap z ++ [T]) z)).
  assert (H1 : deref (heap z1) (resultantZoom z1) = Some T).
  { exact (deref_alloc_new (heap z) T). }
  destruct (Zoom_repaint_frame z1 T H1)
    as (z' & Hz' & (Hzo & Hact & Hres & Hsrc & Htap & Hcfg & Hwnd & _)
           & (_ & Hobj)).
  exists z'. repeat split; trivial.
  intros r Hr. rewrite Hobj by (simpl; lia).
  exact (deref_alloc_old (heap z) T r Hr).
Qed.

(** C5.  [activeZoom] is updated only when a gesture is finalized
    (touch-end, or a reset committing), never in mid-gesture.  In a state
    whose [activeZoom] is an object of the store: every touch-move returns
    and leaves [activeZoom], the object it refers to and every other
    existing object unchanged (only [resultantZoom] may move, to a new
    object); a touch-start leaves [activeZoom] and the store unchanged
    unless it is the double tap that commits a reset at once (no frame
    scheduler); the tap timer leaves them unchanged; and touch-end in a
    session commits [resultantZoom]. *)
Theorem activeZoom_updated_only_at_finalization (z : Zoom) :
  (activeZoom z < length (heap z))%nat ->
  (forall touches, touches <> Some [] ->
     exists z' p,
       touchmove touches z = Some (z', p) /\
       activeZoom z' = activeZoom z /\
       deref (heap z') (activeZoom z') = deref (heap z) (activeZoom z) /\
       (forall r, (r < length (heap z))%nat ->
                  deref (heap z') r = deref (heap z) r) /\
       (resultantZoom z' = resultantZoom z \/
        resultantZoom z' = length (heap z)) /\
       zooming z' = zooming z /\ srcCoords z' = srcCoords z /\
       tapped z' = tapped z) /\
  (forall touches z' p,
     touchstart touches z = Some (z', p) ->
     (activeZoom z' = activeZoom z /\ heap z' = heap z) \/
     (requestAnimationFrame (wnd z) = false /\ tapped z = true /\
      activeZoom z' = identity_ref)) /\
  (activeZoom (tap_timeout z) = activeZoom z /\
   heap (tap_timeout z) = heap z) /\
  (zooming z = true ->
   exists z', touchend z = Some (z', true) /\
              activeZoom z' = resultantZoom z /\ zooming z' = false).
Proof.
  intros Hlt. split; [ | split; [ | split]].
  - (* touch-move *)
    intros touches Hne. unfold touchmove.
    destruct (negb (inZoom z) && negb (zooming z)).
    { exists z, false. repeat split; auto. }
    destruct touches as [t | ].
    2: { exists z, false. repeat split; auto. }
    destruct (negb (zooming z)).
    { exists z, false. repeat split; auto. }
    destruct (getCoords_nonempty (element z) t) as [dest ->].
    { intros ->. apply Hne. reflexivity. }
    simpl.
    destruct (Zoom_previewZoom_frame
                (zoom (srcCoords z) dest (rotate_cfg (config z)) Undefined)
                z Hlt)
      as (z' & -> & Hzo & Hact & Hsrc & Htap & _ & _ & Hres & Hobj).
    simpl. exists z', true. repeat split; auto.
    rewrite Hact. apply Hobj. exact Hlt.
  - (* touch-start *)
    intros touches z' p. unfold touchstart.
    destruct (negb (inZoom z) && negb (zooming z) && _).
    { intros H. injection H as <- _. left. split; reflexivity. }
    destruct touches as [t | ].
    2: { intros H. injection H as <- _. left. split; reflexivity. }
    destruct (length t =? 2)%nat.
    { simpl. destruct (getCoords (element z) t); simpl; [ | discriminate].
      intros H. injection H as <- _. left. split; reflexivity. }
    destruct (length t =? 1)%nat.
    2: { destruct (zooming z).
         - destruct (getCoords (element z) t); simpl; [ | discriminate].
           intros H. injection H as <- _. left. split; reflexivity.
         - simpl. intros H. injection H as <- _. left. split; reflexivity. }
    destruct (tapped z) eqn:Etap; simpl.
    + (* second tap: reset *)
      destruct (zooming z); simpl.
      * destruct (getCoords (element z) t); simpl; [ | discriminate].
        unfold Zoom_reset; simpl.
        destruct (requestAnimationFrame (wnd z)) eqn:Eraf; simpl.
        -- intros H. injection H as <- _. left. split; reflexivity.
        -- unfold Zoom_setZoom.
           match goal with
           | |- context [Zoom_repaint ?z1] =>
               destruct (Zoom_repaint z1) as [z2 | ] eqn:E2
           end; simpl; [ | discriminate].
           intros H. injection H as <- _. right.
           destruct (Zoom_repaint_Some_inv _ _ E2) as ((_ & Hact & _) & _).
           repeat split; trivial.
      * unfold Zoom_reset; simpl.
        destruct (requestAnimationFrame (wnd z)) eqn:Eraf; simpl.
        -- intros H. injection H as <- _. left. split; reflexivity.
        -- unfold Zoom_setZoom.
           match goal with
           | |- context [Zoom_repaint ?z1] =>
               destruct (Zoom_repaint z1) as [z2 | ] eqn:E2
           end; simpl; [ | discriminate].
           intros H. injection H as <- _. right.
           destruct (Zoom_repaint_Some_inv _ _ E2) as ((_ & Hact & _) & _).
           repeat split; trivial.
    + (* first tap *)
      destruct (pan (config z)); simpl.
      * destruct (getCoords (element z) t); simpl; [ | discriminate].
        intros H. injection H as <- _. left. split; reflexivity.
      * destruct (zooming z); simpl.
        -- destruct (getCoords (element z) t); simpl; [ | discriminate].
           intros H. injection H as <- _. left. split; reflexivity.
        -- intros H. injection H as <- _. left. split; reflexivity.
  - split; reflexivity.
  - intros Hz. unfold touchend. rewrite Hz.
    rewrite andb_false_r. eexists. repeat split.
Qed.

Lemma z_session_reached :
  touchstart (Some [mkTouch (Num 0) (Num 0); mkTouch (Num 10) (Num 0)])
             (Zoom_new e_sample screen_sample None true)
  = Some (z_session, true).
Proof.
  unfold touchstart, Zoom_new, z_session. simpl.
  unfold set_srcCoords, set_zooming, default_config, defaults. simpl.
  repeat f_equal; lra.
Qed.

Lemma activeZoom_updated_only_at_finalization_witness :
  exists z' p,
    touchmove (Some touches_sample) z_session = Some (z', p) /\
    activeZoom z' = activeZoom z_session /\
    deref (heap z') (activeZoom z')
      = deref (heap z_session) (activeZoom z_session) /\
    (forall r, (r < length (heap z_session))%nat ->
               deref (heap z') r = deref (heap z_session) r) /\
    (resultantZoom z' = resultantZoom z_session \/
     resultantZoom z' = length (heap z_session)) /\
    zooming z' = zooming z_session /\ srcCoords z' = srcCoords z_session /\
    tapped z' = tapped z_session.
Proof.
  destruct (activeZoom_updated_only_at_finalization z_session) as [Hmove _].
  - unfold z_session, identity_ref. simpl. lia.
  - apply Hmove. discriminate.
Defined.

(** ** The animated reset *)

(** C10.  For all Transforms [Z], [I] and every progress value, the
    Transform made by [Transform.avg] has no element, and rendering it
    yields no descriptor.  Consequently every frame of an animated reset,
    the intermediate ones included, returns with the surface in native
    scroll presentation ([inZoom] false, transform ["none"], overflow
    ["scroll"]) and with [activeZoom] committed to [resultantZoom]: the
    blended transform is committed but not shown. *)
Theorem animated_reset_frames_native
  (z : Zoom) (rid : nat) (time : number) (c : ResetClosure) (Zt : Transform) :
  nth_error (resets (wnd z)) rid = Some c ->
  deref (heap z) (Z c) = Some Zt ->
  deref (heap z) identity_ref = Some identity ->
  (forall Z0 I0 progress,
     elem (Transform_avg Z0 I0 progress) = Undefined /\
     forall e sh,
       fst (css e sh (Transform_avg Z0 I0 progress)) = CssUndefined /\
       css_truthy (fst (css e sh (Transform_avg Z0 I0 progress))) = false) /\
  exists z',
    step rid time z = Some z' /\ native_scroll z' /\
    activeZoom z' = resultantZoom z'.
Proof.
  intros Hc HZ HI. split.
  { intros Z0 I0 progress. split; [reflexivity | ].
    intros e sh.
    destruct (css_no_element e sh (Transform_avg Z0 I0 progress) eq_refl)
      as [-> _]. split; reflexivity. }
  unfold step. rewrite Hc. simpl.
  match goal with
  | |- context [if ?g then _ else _] => destruct g
  end.
  - (* the last frame *)
    unfold Zoom_setZoom.
    match goal with
    | |- context [Zoom_repaint ?z1] =>
        destruct (Zoom_repaint_no_element z1 identity HI eq_refl)
          as (z' & Hz' & Hn & (_ & Hact & Hres & _) & _)
    end.
    exists z'. split; [exact Hz' | split; [exact Hn | ]].
    rewrite Hact, Hres. reflexivity.
  - (* an intermediate frame *)
    rewrite HZ, HI. simpl.
    unfold Zoom_setZoom.
    match goal with
    | |- context [Zoom_repaint ?z1] =>
        destruct (Zoom_repaint_no_element z1
                    (Transform_avg Zt identity
                       ((time - match startTime c with
                                | None => time
                                | Some s => if truthy s then s else time
                                end) / 100)%js))
          as (z' & Hz' & Hn & (_ & Hact & Hres & _) & _);
        [ exact (deref_alloc_new (heap z) _) | reflexivity | ]
    end.
    rewrite Hz'. simpl.
    eexists. split; [reflexivity | split; [exact Hn | ]].
    simpl. rewrite Hact, Hres. reflexivity.
Qed.

Lemma animated_reset_frames_native_witness :
  exists z',
    step O (Num 16) z_resetting = Some z' /\ native_scroll z' /\
    activeZoom z' = resultantZoom z'.
Proof.
  apply (animated_reset_frames_native z_resetting O (Num 16)
           (mkReset 1%nat None) T_triple); reflexivity.
Defined.

(** ** A touch-move with a degenerate source pair *)

Lemma mul_NaN_r (x : number) : (x * NaN)%js = NaN.
Proof. destruct x; reflexivity. Qed.

Lemma add_NaN_r (x : number) : (x + NaN)%js = NaN.
Proof. destruct x; reflexivity. Qed.

Lemma sub_NaN_r (x : number) : (x - NaN)%js = NaN.
Proof. destruct x; reflexivity. Qed.

Lemma inf_of_sign_0 : inf_of_sign 0 = NaN.
Proof. unfold inf_of_sign. rewrite !Rltb_false by lra. reflexivity. Qed.

Lemma sub_self_zeroish (x : number) : zeroish (x - x)%js.
Proof.
  destruct x as [r | | | ]; simpl; [left | right | right | right]; trivial.
  apply Num_eq. ring.
Qed.

Lemma mul_zeroish (x y : number) : zeroish x -> zeroish (x * y)%js.
Proof.
  intros [-> | ->]; [ | right; reflexivity].
  destruct y as [r | | | ]; simpl.
  - left. apply Num_eq. ring.
  - right. apply inf_of_sign_0.
  - right. replace (- 0) with 0 by ring. apply inf_of_sign_0.
  - right. reflexivity.
Qed.

Lemma add_zeroish (x y : number) :
  zeroish x -> zeroish y -> zeroish (x + y)%js.
Proof.
  intros [-> | ->] [-> | ->]; simpl; [left | right | right | right]; trivial.
  apply Num_eq. ring.
Qed.

Lemma sub_zeroish (x y : number) :
  zeroish x -> zeroish y -> zeroish (x - y)%js.
Proof.
  intros [-> | ->] [-> | ->]; simpl; [left | right | right | right]; trivial.
  apply Num_eq. ring.
Qed.

Lemma div_zeroish (x y : number) :
  zeroish x -> zeroish y -> (x / y)%js = NaN.
Proof.
  intros [-> | ->] [-> | ->]; simpl; trivial.
  rewrite Reqb_true by reflexivity. apply inf_of_sign_0.
Qed.

(** With coinciding source points the solver divides zero by zero: every
    entry of the Transform it returns is [NaN], whatever the destination
    pair. *)
Lemma zoom_degenerate (s d : PointPair) (el : ElemField) :
  fst s = snd s -> zoom s d true el = T_NaN el.
Proof.
  destruct s as [[x y] s1], d as [[u0 v0] [u1 v1]]. simpl. intros <-.
  unfold zoom, rotscale, rotate, dot, wedge, minus, T_NaN.
  simpl fst; simpl snd.
  pose proof (sub_self_zeroish x) as Hx. pose proof (sub_self_zeroish y) as Hy.
  set (a0 := (x - x)%js) in *. set (a1 := (y - y)%js) in *.
  assert (Hlen : zeroish (a0 * a0 + a1 * a1)%js)
    by (apply add_zeroish; apply mul_zeroish; assumption).
  rewrite (div_zeroish _ _
             (add_zeroish _ _ (mul_zeroish a0 _ Hx) (mul_zeroish a1 _ Hy)) Hlen).
  rewrite (div_zeroish _ _
             (sub_zeroish _ _ (mul_zeroish a0 _ Hx) (mul_zeroish a1 _ Hy)) Hlen).
  unfold apply, vcadd, scmult. simpl.
  rewrite !mul_NaN_r. simpl. rewrite !sub_NaN_r. reflexivity.
Qed.

Lemma cascade_NaN (U : Transform) (el el' : ElemField) :
  cascade (T_NaN el') U el = T_NaN el.
Proof.
  unfold cascade, T_NaN, mult, apply, vcadd, scmult. simpl.
  rewrite !mul_NaN_r. simpl. rewrite ?add_NaN_r. reflexivity.
Qed.

(** Rendering the all-[NaN] Transform on the element: no comparison with
    [NaN] holds, so nothing is floored or clamped and the descriptor is
    made of [NaN]. *)
Lemma css_NaN (e : Element) (sh : number) :
  css e sh (T_NaN TheElement) = (css_NaN_descriptor, T_NaN TheElement).
Proof.
  unfold css, T_NaN, css_NaN_descriptor, JS.gt.
  cbv beta iota zeta delta [A b elem].
  rewrite !mul_NaN_r.
  cbv beta iota zeta delta [JS.lt JS.eq JS.sub andb].
  reflexivity.
Qed.

Lemma Zoom_repaint_NaN (z : Zoom) :
  deref (heap z) (resultantZoom z) = Some (T_NaN TheElement) ->
  exists z', Zoom_repaint z = Some z' /\
    deref (heap z') (resultantZoom z') = Some (T_NaN TheElement) /\
    inZoom z' = true /\
    style_transform (element z') = StyleCss css_NaN_descriptor.
Proof.
  intros H. pose proof (deref_Some_lt _ _ _ H) as Hlt.
  unfold Zoom_repaint. rewrite (css_call_ok z _ H), css_NaN. simpl.
  match goal with
  | |- context [css_call ?z1] =>
      assert (H1 : deref (heap z1) (resultantZoom z1)
                   = Some (T_NaN TheElement))
  end.
  { destruct (scrollTop (element z) >? 0)%js; simpl;
      apply nth_error_store_same; exact Hlt. }
  rewrite (css_call_ok _ _ H1), css_NaN. simpl.
  eexists. split; [reflexivity | ].
  destruct (scrollTop (element z) >? 0)%js; simpl;
    (split; [apply nth_error_store_same; rewrite length_store; exact Hlt
            | split; reflexivity]).
Qed.

(** C1 (as the code has it).  The engine does not check the source delta.
    On a touch-move in a session whose two source points coincide it does
    not skip the update and raises no fault: with rotation enabled it runs
    the solver, which divides zero by zero, and [resultantZoom] becomes a
    new Transform all of whose entries are [NaN], which is rendered as
    such.  [activeZoom] is unchanged. *)
Theorem touchmove_degenerate_source (z : Zoom) (t : list Touch) :
  zooming z = true ->
  rotate_cfg (config z) = true ->
  (activeZoom z < length (heap z))%nat ->
  fst (srcCoords z) = snd (srcCoords z) ->
  t <> [] ->
  exists z',
    touchmove (Some t) z = Some (z', true) /\
    resultantZoom z' = length (heap z) /\
    deref (heap z') (resultantZoom z') = Some (T_NaN TheElement) /\
    inZoom z' = true /\
    style_transform (element z') = StyleCss css_NaN_descriptor /\
    activeZoom z' = activeZoom z.
Proof.
  intros Hz Hrot Hlt Hsrc Ht.
  destruct (lt_deref_Some _ _ Hlt) as [active Ha].
  unfold touchmove. rewrite Hz, andb_false_r. simpl.
  destruct (getCoords_nonempty (element z) t Ht) as [dest ->]. simpl.
  rewrite Hrot, (zoom_degenerate _ _ _ Hsrc).
  unfold Zoom_previewZoom. rewrite Ha. simpl. rewrite cascade_NaN.
  match goal with
  | |- context [Zoom_repaint ?z1] =>
      destruct (Zoom_repaint_NaN z1) as (z' & Hz' & Hobj & Hin & Hst);
      [ exact (deref_alloc_new (heap z) _) | ];
      destruct (Zoom_repaint_Some_inv _ _ Hz') as ((_ & Hact & Hres & _) & _)
  end.
  rewrite Hz'. simpl. exists z'. repeat split; trivial.
Qed.

Lemma touchmove_degenerate_source_witness :
  exists z',
    touchmove (Some touches_apart) z_degenerate = Some (z', true) /\
    resultantZoom z' = length (heap z_degenerate) /\
    deref (heap z') (resultantZoom z') = Some (T_NaN TheElement) /\
    inZoom z' = true /\
    style_transform (element z') = StyleCss css_NaN_descriptor /\
    activeZoom z' = activeZoom z_degenerate.
Proof.
  apply (touchmove_degenerate_source z_degenerate touches_apart).
  - reflexivity.
  - reflexivity.
  - unfold z_degenerate, identity_ref. simpl. lia.
  - reflexivity.
  - discriminate.
Defined.

(** C1 fails as stated: in the session [z_degenerate], whose two source
    points are the same pixel, a touch-move is not skipped.  The listener
    returns, [resultantZoom], which was the identity, is afterwards the
    all-[NaN] Transform, and the descriptor written to the element is made
    of [NaN]. *)
Lemma touchmove_degenerate_not_skipped :
  fst (srcCoords z_degenerate) = snd (srcCoords z_degenerate) /\
  deref (heap z_degenerate) (resultantZoom z_degenerate) = Some identity /\
  identity <> T_NaN TheElement /\
  exists z',
    touchmove (Some touches_apart) z_degenerate = Some (z', true) /\
    deref (heap z') (resultantZoom z') = Some (T_NaN TheElement) /\
    style_transform (element z') = StyleCss css_NaN_descriptor.
Proof.
  split; [reflexivity | split; [reflexivity | split; [discriminate | ]]].
  unfold touchmove, z_degenerate, touches_apart. simpl.
  rewrite zoom_degenerate by reflexivity.
  unfold Zoom_previewZoom, deref, identity_ref. simpl.
  rewrite cascade_NaN.
  match goal with
  | |- context [Zoom_repaint ?z1] =>
      destruct (Zoom_repaint_NaN z1) as (z' & Hz' & Hobj & _ & Hst);
      [ reflexivity | ]
  end.
  rewrite Hz'. simpl. exists z'. repeat split; trivial.
Qed.

(** ** A worked session

    The scenario of the specification: two fingers start at (0,0) and
    (10,0) and move to (0,0) and (20,0). *)

Example zoom_scenario_rotate :
  zoom ((Num 0, Num 0), (Num 10, Num 0)) ((Num 0, Num 0), (Num 20, Num 0))
       true Undefined
  = T_scale2 Undefined.
Proof.
  unfold zoom, rotscale, rotate, dot, wedge, minus, apply, vcadd, scmult,
    T_scale2.
  js_eval. repeat f_equal; lra.
Qed.

Example zoom_scenario_scale_only :
  zoom ((Num 0, Num 0), (Num 10, Num 0)) ((Num 0, Num 0), (Num 20, Num 0))
       false Undefined
  = T_scale2 Undefined.
Proof.
  unfold zoom, justscale, rotate, dot, wedge, minus, apply, vcadd, scmult,
    T_scale2.
  cbn -[Rltb Reqb Rplus Rminus Rmult Rdiv Ropp Rinv IZR Rabs R_sqrt.sqrt].
  replace ((10 - 0) * (10 - 0) + (0 - 0) * (0 - 0)) with (10 * 10) by lra.
  replace ((20 - 0) * (20 - 0) + (0 - 0) * (0 - 0)) with (20 * 20) by lra.
  rewrite !sqrt_square by lra.
  unfold JS.sqrt, JS.div, JS.neg, JS.mul, JS.add, JS.sub.
  js_decide.
  cbn -[Rltb Reqb Rplus Rminus Rmult Rdiv Ropp Rinv IZR Rabs R_sqrt.sqrt].
  repeat f_equal; lra.
Qed.

Lemma css_scale2 (d : option number) :
  css (mkElement (Num 120) d (Num 1000) (Num 300) (Num 0) (Num 0)
                 StyleUnset OverflowUnset)
      screen_sample (T_scale2 TheElement)
  = (CssMatrix (Num 2) (Num 0) (Num 0) (Num 2) (Num 0) (Num (-240)),
     T_scale2 TheElement).
Proof.
  unfold css, T_scale2, screen_sample, JS.gt, JS.le, JS.lt, JS.eq. js_eval.
  repeat f_equal; lra.
Qed.

(** The touch-move of that session: [resultantZoom] becomes the scale by
    2, left as it is by the clamps, and the element gets the descriptor
    ["matrix(2,0,0,2,0,-240)"]. *)
Example touchmove_scenario :
  exists z',
    touchmove (Some touches_sample) z_session = Some (z', true) /\
    deref (heap z') (resultantZoom z') = Some (T_scale2 TheElement) /\
    style_transform (element z')
    = StyleCss (CssMatrix (Num 2) (Num 0) (Num 0) (Num 2) (Num 0)
                          (Num (-240))) /\
    inZoom z' = true.
Proof.
  assert (Hcas : cascade (T_scale2 Undefined) identity TheElement
                 = T_scale2 TheElement).
  { unfold cascade, T_scale2, identity, mult, apply, vcadd, scmult. simpl.
    repeat f_equal; lra. }
  unfold touchmove, z_session. simpl.
  match goal with
  | |- context [zoom ?s ?d true Undefined] =>
      replace (zoom s d true Undefined) with (T_scale2 Undefined)
  end.
  2: { rewrite <- zoom_scenario_rotate. repeat f_equal; lra. }
  unfold Zoom_previewZoom, identity_ref, deref. simpl. rewrite Hcas.
  unfold Zoom_repaint, css_call, deref. simpl.
  unfold e_sample. rewrite css_scale2. simpl.
  unfold JS.gt, JS.lt. js_decide. simpl.
  unfold set_dataset_scrollTop. simpl. rewrite css_scale2. simpl.
  eexists. repeat split.
Qed.

(** * Further properties of the code *)

(** ** The algebra (lines 12-80) *)

Ltac finite_vec H := destruct (finiteV_inv _ H) as (? & ? & ->).
Ltac finite_mat H := destruct (finiteM_inv _ H) as (? & ? & ? & ? & ->).

(** X1.  For vectors with real entries [dot] is symmetric and [wedge] is
    antisymmetric and vanishes on equal arguments. *)
Theorem dot_wedge_laws (a c : Vector) :
  finiteV a -> finiteV c ->
  dot a c = dot c a /\
  wedge a c = (- wedge c a)%js /\
  wedge a a = Num 0.
Proof.
  intros Ha Hc. finite_vec Ha. finite_vec Hc.
  unfold dot, wedge. simpl. repeat split; apply Num_eq; ring.
Qed.

Lemma dot_wedge_laws_witness :
  dot (fst s_sample) (snd s_sample) = dot (snd s_sample) (fst s_sample) /\
  wedge (fst s_sample) (snd s_sample)
    = (- wedge (snd s_sample) (fst s_sample))%js /\
  wedge (fst s_sample) (fst s_sample) = Num 0.
Proof.
  apply (dot_wedge_laws (fst s_sample) (snd s_sample)); repeat split.
Defined.

(** ** The solver (lines 159-217) *)

Lemma sum_squares_pos (x y : R) : x * x + y * y <> 0 -> 0 < x * x + y * y.
Proof. intros H. nra. Qed.

Lemma sum_squares_nonneg (x y : R) : 0 <= x * x + y * y.
Proof. nra. Qed.

(** [Math.sqrt] of a sum of two squares. *)
Lemma sqrt_sum_squares (x y : R) :
  JS.sqrt (Num (x * x + y * y)) = Num (R_sqrt.sqrt (x * x + y * y)).
Proof.
  unfold JS.sqrt. rewrite Rltb_false; [reflexivity | ].
  pose proof (sum_squares_nonneg x y). lra.
Qed.

(** X6.  In scale-only mode the solver never rotates: for a non-degenerate
    source pair and a destination pair with real coordinates, the matrix of
    [zoom(s, d, false)] is [[k,0],[0,k]] for a number [k >= 0] (no [NaN], no
    infinity), and [k] is positive exactly when the destination points
    differ. *)
Theorem zoom_scale_only (s d : PointPair) (el : ElemField) :
  finiteP s -> finiteP d -> fst s <> snd s ->
  exists k : R,
    0 <= k /\
    A (zoom s d false el) = ((Num k, Num 0), (Num 0, Num k)) /\
    (0 < k <-> fst d <> snd d).
Proof.
  intros [Hs0 Hs1] [Hd0 Hd1] Hne.
  destruct s as [s0 s1], d as [d0 d1]. simpl in Hs0, Hs1, Hd0, Hd1, Hne.
  simpl fst; simpl snd.
  destruct (finiteV_inv _ Hs0) as (x0 & y0 & ->).
  destruct (finiteV_inv _ Hs1) as (x1 & y1 & ->).
  destruct (finiteV_inv _ Hd0) as (u0 & v0 & ->).
  destruct (finiteV_inv _ Hd1) as (u1 & v1 & ->).
  pose proof (sum_squares_nonzero _ _ (points_differ _ _ _ _ Hne)) as Hlen.
  pose proof (sum_squares_pos _ _ Hlen) as Hpos.
  pose proof (sum_squares_nonneg (u1 - u0) (v1 - v0)) as Hb.
  set (La := (x1 - x0) * (x1 - x0) + (y1 - y0) * (y1 - y0)) in *.
  set (Lb := (u1 - u0) * (u1 - u0) + (v1 - v0) * (v1 - v0)) in *.
  assert (Hsa : 0 < R_sqrt.sqrt La) by (apply sqrt_lt_R0; exact Hpos).
  assert (Hsb : 0 <= R_sqrt.sqrt Lb) by (apply sqrt_pos).
  assert (Hjs : justscale (Num (x1 - x0), Num (y1 - y0))
                          (Num (u1 - u0), Num (v1 - v0))
                = ((Num (R_sqrt.sqrt Lb / R_sqrt.sqrt La), Num 0),
                   (Num 0, Num (R_sqrt.sqrt Lb / R_sqrt.sqrt La)))).
  { unfold justscale, rotate, dot. simpl fst; simpl snd.
    change ((Num (x1 - x0) * Num (x1 - x0) + Num (y1 - y0) * Num (y1 - y0))%js)
      with (Num La).
    change ((Num (u1 - u0) * Num (u1 - u0) + Num (v1 - v0) * Num (v1 - v0))%js)
      with (Num Lb).
    unfold La, Lb. rewrite !sqrt_sum_squares. fold La Lb.
    unfold JS.div. rewrite Reqb_false by lra. simpl.
    repeat f_equal. ring. }
  set (k := R_sqrt.sqrt Lb / R_sqrt.sqrt La) in *.
  exists k.
  split; [ | split].
  - apply Rmult_le_pos; [exact Hsb | ]. left. apply Rinv_0_lt_compat. exact Hsa.
  - unfold zoom. cbv zeta. simpl fst; simpl snd. simpl A.
    change (minus (Num x1, Num y1) (Num x0, Num y0))
      with (Num (x1 - x0), Num (y1 - y0)).
    change (minus (Num u1, Num v1) (Num u0, Num v0))
      with (Num (u1 - u0), Num (v1 - v0)).
    exact Hjs.
  - split.
    + intros Hk Heq. injection Heq as -> ->.
      assert (E : Lb = 0) by (unfold Lb; ring).
      unfold k in Hk. rewrite E, sqrt_0 in Hk.
      unfold Rdiv in Hk. rewrite Rmult_0_l in Hk. lra.
    + intros Hd.
      pose proof (sum_squares_pos _ _
                    (sum_squares_nonzero _ _ (points_differ _ _ _ _ Hd)))
        as Hposb.
      fold Lb in Hposb.
      unfold k. apply Rmult_lt_0_compat.
      * apply sqrt_lt_R0. exact Hposb.
      * apply Rinv_0_lt_compat. exact Hsa.
Qed.

Lemma zoom_scale_only_witness :
  exists k : R,
    0 <= k /\
    A (zoom s_sample d_sample false Undefined)
    = ((Num k, Num 0), (Num 0, Num k)) /\
    (0 < k <-> fst d_sample <> snd d_sample).
Proof.
  apply (zoom_scale_only s_sample d_sample Undefined).
  - repeat split.
  - repeat split.
  - simpl. intros H. injection H as H1 H2. lra.
Defined.

Lemma sqrt_nonzero (L : R) : 0 < L -> R_sqrt.sqrt L <> 0.
Proof. intros H. pose proof (sqrt_lt_R0 L H). lra. Qed.

(** X7.  No movement, no change: for a non-degenerate pair [s] with real
    coordinates, [zoom(s, s, rotate)] is the identity matrix with zero
    translation, in both solver modes. *)
Theorem zoom_same_pair_identity (s : PointPair) (rot : bool) (el : ElemField) :
  finiteP s -> fst s <> snd s ->
  zoom s s rot el = mkTransform (A identity) (b identity) el.
Proof.
  intros [Hs0 Hs1] Hne.
  destruct s as [s0 s1]. simpl in Hs0, Hs1, Hne.
  destruct (finiteV_inv _ Hs0) as (x0 & y0 & ->).
  destruct (finiteV_inv _ Hs1) as (x1 & y1 & ->).
  pose proof (sum_squares_nonzero _ _ (points_differ _ _ _ _ Hne)) as Hlen.
  pose proof (sum_squares_pos _ _ Hlen) as Hpos.
  unfold zoom, identity. simpl fst; simpl snd. simpl A; simpl b.
  change (minus (Num x1, Num y1) (Num x0, Num y0))
    with (Num (x1 - x0), Num (y1 - y0)).
  destruct rot.
  - unfold rotscale, rotate, dot, wedge, minus, apply, vcadd, scmult.
    cbn -[Reqb Rplus Rminus Rmult Rdiv Ropp Rinv].
    rewrite (Reqb_false _ 0 Hlen).
    cbn -[Rplus Rminus Rmult Rdiv Ropp Rinv].
    f_equal; [f_equal | ]; apply vec_eq; field; exact Hlen.
  - unfold justscale, rotate, dot. simpl fst; simpl snd.
    change ((Num (x1 - x0) * Num (x1 - x0) + Num (y1 - y0) * Num (y1 - y0))%js)
      with (Num ((x1 - x0) * (x1 - x0) + (y1 - y0) * (y1 - y0))).
    rewrite !sqrt_sum_squares.
    pose proof (sqrt_nonzero _ Hpos) as Hq.
    set (q := R_sqrt.sqrt _) in *.
    unfold JS.div. rewrite (Reqb_false _ 0 Hq).
    unfold minus, apply, vcadd, scmult. simpl.
    f_equal; [f_equal | ]; apply vec_eq; field; exact Hq.
Qed.

Lemma zoom_same_pair_identity_witness :
  zoom s_sample s_sample false TheElement
  = mkTransform (A identity) (b identity) TheElement.
Proof.
  apply (zoom_same_pair_identity s_sample false TheElement).
  - repeat split.
  - simpl. intros H. injection H as H1 H2. lra.
Defined.

(** ** The coordinate helpers (lines 314-336) *)

(** X8.  A single-finger drag is a pure translation: the pairs
    [getCoords] makes of one touch differ by (1,1), so for touches and
    element offsets at integer pixel positions (of magnitude at most
    [2^31], where binary64 computes these sums exactly too) the solver, in
    either mode, returns the identity matrix with the displacement of the
    finger as translation. *)
Theorem single_finger_pan
  (e : Element) (ox oy tx ty ux uy : BinNums.Z) (rot : bool) (el : ElemField) :
  offsetLeft e = Num (IZR ox) -> offsetTop e = Num (IZR oy) ->
  pixel ox -> pixel oy -> pixel tx -> pixel ty -> pixel ux -> pixel uy ->
  exists s d,
    getCoords e [mkTouch (Num (IZR tx)) (Num (IZR ty))] = Some s /\
    getCoords e [mkTouch (Num (IZR ux)) (Num (IZR uy))] = Some d /\
    zoom s d rot el
    = mkTransform (A identity)
                  (Num (IZR (ux - tx)), Num (IZR (uy - ty))) el.
Proof.
  intros Eox Eoy _ _ _ _ _ _.
  unfold getCoords, getCoordsSingle. simpl length. simpl Nat.ltb. cbv iota.
  rewrite Eox, Eoy. simpl pageX; simpl pageY.
  eexists. eexists. split; [reflexivity | split; [reflexivity | ]].
  unfold zoom, identity. simpl fst; simpl snd. simpl A.
  rewrite !minus_IZR.
  set (a := IZR tx). set (c := IZR ty). set (u := IZR ux). set (v := IZR uy).
  set (x := IZR ox). set (y := IZR oy).
  assert (H2 : 0 < 2) by lra.
  pose proof (sqrt_nonzero 2 H2) as Hq.
  destruct rot.
  - unfold rotscale, rotate, dot, wedge, minus, apply, vcadd, scmult.
    cbn -[Reqb Rplus Rminus Rmult Rdiv Ropp Rinv].
    match goal with
    | |- context [Reqb ?L 0] => replace L with 2 by ring
    end.
    rewrite (Reqb_false 2 0) by lra.
    cbn -[Rplus Rminus Rmult Rdiv Ropp Rinv].
    f_equal; [f_equal | ]; apply vec_eq; field.
  - unfold justscale, rotate, dot, minus. simpl fst; simpl snd.
    cbn -[Reqb Rltb Rplus Rminus Rmult Rdiv Ropp Rinv R_sqrt.sqrt JS.sqrt JS.div
          apply].
    replace ((a - x + 1 - (a - x)) * (a - x + 1 - (a - x))
             + (c - y + 1 - (c - y)) * (c - y + 1 - (c - y)))
      with 2 by ring.
    replace ((u - x + 1 - (u - x)) * (u - x + 1 - (u - x))
             + (v - y + 1 - (v - y)) * (v - y + 1 - (v - y)))
      with 2 by ring.
    unfold JS.sqrt. rewrite (Rltb_false 2 0) by lra.
    unfold JS.div. rewrite (Reqb_false _ 0 Hq).
    unfold apply, vcadd, scmult. simpl.
    f_equal; [f_equal | ]; apply vec_eq; field; exact Hq.
Qed.

Lemma single_finger_pan_witness :
  exists s d,
    getCoords e_sample [mkTouch (Num (IZR 10)) (Num (IZR 20))] = Some s /\
    getCoords e_sample [mkTouch (Num (IZR 13)) (Num (IZR 24))] = Some d /\
    zoom s d true Undefined
    = mkTransform (A identity)
                  (Num (IZR (13 - 10)), Num (IZR (24 - 20))) Undefined.
Proof.
  apply (single_finger_pan e_sample 0 0 10 20 13 24 true Undefined);
    try reflexivity; unfold pixel; simpl; lia.
Defined.

(** X10.  An empty touch list is a fault for an active session: both
    touch-move and touch-start read [t[0]] and raise. *)
Theorem empty_touch_list_raises (z : Zoom) :
  zooming z = true ->
  touchmove (Some []) z = None /\ touchstart (Some []) z = None.
Proof.
  intros Hz. unfold touchmove, touchstart. rewrite Hz.
  rewrite !andb_false_r. simpl. rewrite Hz. split; reflexivity.
Qed.

Lemma empty_touch_list_raises_witness :
  touchmove (Some []) z_session = None /\ touchstart (Some []) z_session = None.
Proof. apply (empty_touch_list_raises z_session). reflexivity. Defined.

(** ** Rendering, continued (lines 100-138) *)

Lemma lt_irrefl (x : number) : (x <? x)%js = false.
Proof.
  destruct x; unfold JS.lt; trivial. apply Rltb_false. lra.
Qed.

Lemma clamp_idem (lo hi x : number) :
  clamp lo hi (clamp lo hi x) = clamp lo hi x.
Proof.
  unfold clamp, JS.gt.
  destruct (hi <? x)%js eqn:E1.
  - destruct (hi <? lo)%js eqn:E2.
    + rewrite E2, E2. reflexivity.
    + rewrite lt_irrefl, E2. reflexivity.
  - destruct (x <? lo)%js eqn:E3.
    + destruct (hi <? lo)%js eqn:E2.
      * rewrite E2. reflexivity.
      * rewrite lt_irrefl. reflexivity.
    + rewrite E1, E3. reflexivity.
Qed.

(** [css] on a Transform that has the element, in terms of the named
    parts. *)
Lemma css_with_element (e : Element) (sh : number) (T : Transform) :
  elem T = TheElement ->
  css e sh T
  = (if (floor1 (fst (fst (A T))) ==? 1)%js
        && (floor1 (snd (snd (A T))) ==? 1)%js
     then CssFalse
     else CssMatrix (floor1 (fst (fst (A T)))) (snd (fst (A T)))
            (fst (snd (A T))) (floor1 (snd (snd (A T))))
            (clamp (- pan_dx e (floor1 (fst (fst (A T)))))%js (Num 0)
                   (fst (b T)))
            (clamp (- pan_dy e sh (floor1 (fst (fst (A T)))))%js
                   (pan_st e * floor1 (fst (fst (A T))))%js (snd (b T))
             - pan_st e * floor1 (fst (fst (A T))))%js,
     mkTransform
       ((floor1 (fst (fst (A T))), snd (fst (A T))),
        (fst (snd (A T)), floor1 (snd (snd (A T)))))
       (clamp (- pan_dx e (floor1 (fst (fst (A T)))))%js (Num 0) (fst (b T)),
        clamp (- pan_dy e sh (floor1 (fst (fst (A T)))))%js
              (pan_st e * floor1 (fst (fst (A T))))%js (snd (b T)))
       TheElement).
Proof.
  destruct T as [[[a00 a01] [a10 a11]] [b0 b1] el]. simpl elem. intros ->.
  unfold css, floor1, clamp, pan_dx, pan_dy, pan_st.
  cbv beta iota zeta delta [A b elem fst snd].
  match goal with
  | |- context [if ?c && ?d then (CssFalse, _) else _] => destruct (c && d)
  end; reflexivity.
Qed.

Lemma css_idem (e : Element) (sh : number) (T : Transform) :
  css e sh (snd (css e sh T)) = css e sh T.
Proof.
  destruct (elem T) eqn:He.
  - destruct T as [[[a00 a01] [a10 a11]] [b0 b1] el]. simpl in He. subst el.
    unfold css. cbv beta iota zeta delta [A b elem snd].
    fold (floor1 a00) (floor1 a11).
    change (if (floor1 a00 <? 1)%js then Num 1 else floor1 a00)
      with (floor1 (floor1 a00)).
    change (if (floor1 a11 <? 1)%js then Num 1 else floor1 a11)
      with (floor1 (floor1 a11)).
    rewrite !floor1_idem. reflexivity.
  - rewrite (css_with_element e sh T He).
    cbv beta iota delta [snd].
    rewrite css_with_element by reflexivity.
    cbv beta iota delta [A b fst snd].
    rewrite !floor1_idem, !clamp_idem. reflexivity.
Qed.

Lemma css_dataset_irrelevant (e : Element) (sh v : number) (T : Transform) :
  (scrollTop e >? 0)%js = true ->
  css (set_dataset_scrollTop v e) sh T = css e sh T.
Proof.
  intros H.
  destruct (elem T) eqn:He.
  - destruct T as [[[a00 a01] [a10 a11]] [b0 b1] el]. simpl in He. subst el.
    reflexivity.
  - rewrite !css_with_element by exact He.
    assert (Hst : pan_st (set_dataset_scrollTop v e) = pan_st e).
    { unfold pan_st. simpl. rewrite H. reflexivity. }
    unfold pan_dy, pan_dx. rewrite Hst. reflexivity.
Qed.

(** X11.  Rendering is idempotent: calling [css] again on the object it
    left gives the same result and leaves the same object, so the floor and
    the pan clamp are applied once however often a Transform is
    rendered. *)
Theorem css_idempotent (e : Element) (sh : number) (T : Transform) :
  fst (css e sh (snd (css e sh T))) = fst (css e sh T) /\
  snd (css e sh (snd (css e sh T))) = snd (css e sh T).
Proof. rewrite css_idem. split; reflexivity. Qed.





(** ** Repainting (lines 429-443) *)

(** What a repaint leaves: the object floored and clamped once, and the
    presentation the first result of [css] asks for. *)
Lemma Zoom_repaint_result (z : Zoom) (T : Transform) :
  deref (heap z) (resultantZoom z) = Some T ->
  exists z',
    Zoom_repaint z = Some z' /\
    deref (heap z') (resultantZoom z')
    = Some (snd (css (element z) (screen_height z) T)) /\
    if css_truthy (fst (css (element z) (screen_height z) T))
    then inZoom z' = true /\
         style_transform (element z')
         = StyleCss (fst (css (element z) (screen_height z) T)) /\
         style_overflow (element z') = OverflowVisible
    else native_scroll z'.
Proof.
  intros H. pose proof (deref_Some_lt _ _ _ H) as Hlt.
  unfold Zoom_repaint. rewrite (css_call_ok z T H). simpl.
  set (c := fst (css (element z) (screen_height z) T)).
  set (T1 := snd (css (element z) (screen_height z) T)).
  destruct (css_truthy c) eqn:Ec.
  - destruct (scrollTop (element z) >? 0)%js eqn:Es.
    + match goal with
      | |- context [css_call ?z1] =>
          assert (H1 : deref (heap z1) (resultantZoom z1) = Some T1)
            by (simpl; apply nth_error_store_same; exact Hlt)
      end.
      rewrite (css_call_ok _ _ H1). simpl.
      rewrite (css_dataset_irrelevant _ _ _ _ Es).
      unfold T1. rewrite css_idem. fold c T1.
      eexists. split; [reflexivity | ]. simpl.
      split; [ | repeat split].
      apply nth_error_store_same. rewrite length_store. exact Hlt.
    + match goal with
      | |- context [css_call ?z1] =>
          assert (H1 : deref (heap z1) (resultantZoom z1) = Some T1)
            by (simpl; apply nth_error_store_same; exact Hlt)
      end.
      rewrite (css_call_ok _ _ H1). simpl.
      unfold T1. rewrite css_idem. fold c T1.
      eexists. split; [reflexivity | ]. simpl.
      split; [ | repeat split].
      apply nth_error_store_same. rewrite length_store. exact Hlt.
  - eexists. split; [reflexivity | ]. simpl.
    split; [ | repeat split].
    apply nth_error_store_same. exact Hlt.
Qed.

(** X13.  A repaint presents exactly what [css] returns for the current
    [resultantZoom]: with a descriptor the surface goes to zoom mode
    ([inZoom], overflow visible) and gets that descriptor as its transform,
    the second call of [css] changing nothing; with [false] or [undefined]
    it goes to native scroll mode.  Either way the object is left floored
    and clamped once. *)
Theorem repaint_presents_css (z : Zoom) (T : Transform) :
  deref (heap z) (resultantZoom z) = Some T ->
  exists z',
    Zoom_repaint z = Some z' /\
    deref (heap z') (resultantZoom z')
    = Some (snd (css (element z) (screen_height z) T)) /\
    if css_truthy (fst (css (element z) (screen_height z) T))
    then inZoom z' = true /\
         style_transform (element z')
         = StyleCss (fst (css (element z) (screen_height z) T)) /\
         style_overflow (element z') = OverflowVisible
    else native_scroll z'.
Proof. exact (Zoom_repaint_result z T). Qed.

Lemma repaint_presents_css_witness :
  exists z',
    Zoom_repaint z_resetting = Some z' /\
    deref (heap z') (resultantZoom z')
    = Some (snd (css (element z_resetting) (screen_height z_resetting)
                     T_triple)) /\
    if css_truthy (fst (css (element z_resetting)
                            (screen_height z_resetting) T_triple))
    then inZoom z' = true /\
         style_transform (element z')
         = StyleCss (fst (css (element z_resetting)
                              (screen_height z_resetting) T_triple)) /\
         style_overflow (element z') = OverflowVisible
    else native_scroll z'.
Proof. apply (repaint_presents_css z_resetting T_triple). reflexivity. Defined.

Lemma touchmove_touchend_commit (z : Zoom) (t : list Touch) :
  zooming z = true ->
  (activeZoom z < length (heap z))%nat ->
  t <> [] ->
  exists dest active z1 z2,
    getCoords (element z) t = Some dest /\
    deref (heap z) (activeZoom z) = Some active /\
    touchmove (Some t) z = Some (z1, true) /\
    touchend z1 = Some (z2, true) /\
    zooming z2 = false /\
    deref (heap z2) (activeZoom z2)
    = Some (snd (css (element z) (screen_height z)
                     (cascade (zoom (srcCoords z) dest (rotate_cfg (config z))
                                    Undefined)
                              active TheElement))).
Proof.
  intros Hz Hlt Ht.
  destruct (getCoords_nonempty (element z) t Ht) as [dest Hd].
  destruct (lt_deref_Some _ _ Hlt) as [active Ha].
  exists dest, active.
  unfold touchmove. rewrite Hz, andb_false_r. simpl. rewrite Hd. simpl.
  unfold Zoom_previewZoom. rewrite Ha. simpl.
  set (T := cascade _ active TheElement).
  match goal with
  | |- context [Zoom_repaint ?z0] =>
      destruct (Zoom_repaint_result z0 T) as (z1 & Hz1 & Hobj & _);
      [ exact (deref_alloc_new (heap z) T) | ];
      destruct (Zoom_repaint_Some_inv _ _ Hz1) as ((Hzo & _) & _)
  end.
  simpl in Hobj, Hzo. rewrite Hz1. simpl.
  exists z1. eexists. split; [reflexivity | split; [reflexivity | ]].
  split; [reflexivity | ].
  unfold touchend. rewrite Hzo, Hz, andb_false_r.
  split; [reflexivity | split; [reflexivity | ]].
  simpl. exact Hobj.
Qed.

(** X14.  What a gesture commits.  In a session, a touch-move followed by
    touch-end leaves as [activeZoom] the incremental transform of the move
    composed on the previous [activeZoom], floored at scale 1 and
    pan-clamped as [css] left it, and ends the session. *)
Theorem gesture_commits_clamped (z : Zoom) (t : list Touch) :
  zooming z = true ->
  (activeZoom z < length (heap z))%nat ->
  t <> [] ->
  exists dest active z1 z2,
    getCoords (element z) t = Some dest /\
    deref (heap z) (activeZoom z) = Some active /\
    touchmove (Some t) z = Some (z1, true) /\
    touchend z1 = Some (z2, true) /\
    zooming z2 = false /\
    deref (heap z2) (activeZoom z2)
    = Some (snd (css (element z) (screen_height z)
                     (cascade (zoom (srcCoords z) dest (rotate_cfg (config z))
                                    Undefined)
                              active TheElement))).
Proof. exact (touchmove_touchend_commit z t). Qed.

Lemma gesture_commits_clamped_witness :
  exists dest active z1 z2,
    getCoords (element z_session) touches_sample = Some dest /\
    deref (heap z_session) (activeZoom z_session) = Some active /\
    touchmove (Some touches_sample) z_session = Some (z1, true) /\
    touchend z1 = Some (z2, true) /\
    zooming z2 = false /\
    deref (heap z2) (activeZoom z2)
    = Some (snd (css (element z_session) (screen_height z_session)
                     (cascade (zoom (srcCoords z_session) dest
                                    (rotate_cfg (config z_session)) Undefined)
                              active TheElement))).
Proof.
  apply (gesture_commits_clamped z_session touches_sample).
  - reflexivity.
  - unfold z_session, identity_ref. simpl. lia.
  - discriminate.
Defined.

(** ** An invariant of the engine *)

Lemma css_identity (e : Element) (sh : number) :
  css e sh identity = (CssUndefined, identity).
Proof.
  unfold css, identity, JS.lt. cbv beta iota zeta delta [A b elem].
  rewrite !Rltb_false by lra. reflexivity.
Qed.

Lemma Forall_store {X : Type} (P : X -> Prop) (l : list X) (r : nat) (x : X) :
  Forall P l -> P x -> Forall P (store l r x).
Proof.
  intros Hl Hx. revert r. induction Hl as [ | y l Hy Hl IH]; intros [ | r];
    simpl; auto.
Qed.

Lemma Forall_lt_mono {X : Type} (f : X -> nat) (n m : nat) (l : list X) :
  (n <= m)%nat ->
  Forall (fun c => (f c < n)%nat) l -> Forall (fun c => (f c < m)%nat) l.
Proof.
  intros Hnm H. eapply Forall_impl; [ | exact H]. simpl. intros; lia.
Qed.

Lemma wf_Zoom_new (e : Element) (screen_h : number)
  (cfg : option (option bool * option bool)) (raf : bool) :
  wf (Zoom_new e screen_h cfg raf).
Proof.
  unfold wf, Zoom_new, identity_ref. simpl.
  repeat split; auto.
Qed.

Lemma Zoom_repaint_wf (z : Zoom) :
  wf z ->
  exists z', Zoom_repaint z = Some z' /\ wf z' /\ same_session z z'.
Proof.
  intros (Hid & Ha & Hr & Hres & Hfr).
  destruct (lt_deref_Some _ _ Hr) as [T HT].
  destruct (Zoom_repaint_result z T HT) as (z' & Hz' & Hobj & _).
  destruct (Zoom_repaint_Some_inv _ _ Hz') as (Hs & Hlen & Hoth).
  exists z'. split; [exact Hz' | split; [ | exact Hs]].
  destruct Hs as (_ & h2 & h3 & _ & _ & _ & h7 & _).
  unfold wf. rewrite h2, h3, h7, Hlen. repeat split; trivial.
  destruct (Nat.eq_dec identity_ref (resultantZoom z)) as [E | E].
  - rewrite h3, <- E in Hobj. rewrite <- E, Hid in HT. injection HT as <-.
    rewrite css_identity in Hobj. exact Hobj.
  - rewrite (Hoth _ E). exact Hid.
Qed.

Lemma Zoom_setZoom_wf (r : Ref) (z : Zoom) :
  wf z -> (r < length (heap z))%nat ->
  exists z', Zoom_setZoom r z = Some z' /\ wf z' /\
             activeZoom z' = r /\ resultantZoom z' = r /\
             wnd z' = wnd z /\ tapped z' = tapped z /\ zooming z' = zooming z.
Proof.
  intros (Hid & Ha & Hr & Hres & Hfr) Hlt.
  unfold Zoom_setZoom.
  destruct (Zoom_repaint_wf (Zoom_finalize (set_resultantZoom r z)))
    as (z' & Hz' & Hwf & (h1 & h2 & h3 & _ & h5 & _ & h7 & _)).
  { unfold wf. simpl. repeat split; trivial. }
  simpl in h1, h2, h3, h5, h7.
  exists z'.
  split; [exact Hz' | split; [exact Hwf | repeat split; assumption]].
Qed.

Lemma Zoom_previewZoom_wf (T : Transform) (z : Zoom) :
  wf z -> exists z', Zoom_previewZoom T z = Some z' /\ wf z'.
Proof.
  intros (Hid & Ha & Hr & Hres & Hfr).
  destruct (lt_deref_Some _ _ Ha) as [active Hact].
  unfold Zoom_previewZoom. rewrite Hact. simpl.
  match goal with
  | |- context [Zoom_repaint ?z0] =>
      destruct (Zoom_repaint_wf z0) as (z' & Hz' & Hwf & _)
  end.
  { unfold wf. simpl. rewrite length_app. simpl.
    repeat split; try lia.
    - unfold deref. rewrite nth_error_app1 by (unfold identity_ref; lia).
      exact Hid.
    - eapply Forall_lt_mono; [ | exact Hres]. lia.
    - exact Hfr. }
  exists z'. split; assumption.
Qed.

Lemma request_frame_wf (rid : nat) (z : Zoom) :
  wf z -> (rid < length (resets (wnd z)))%nat -> wf (request_frame rid z).
Proof.
  intros (Hid & Ha & Hr & Hres & Hfr) Hrid.
  unfold wf, request_frame. simpl. repeat split; trivial.
  apply Forall_app. split; [exact Hfr | ]. constructor; [exact Hrid | constructor].
Qed.

Lemma Zoom_reset_wf (z : Zoom) :
  wf z -> exists z', Zoom_reset z = Some z' /\ wf z'.
Proof.
  intros Hwf. unfold Zoom_reset.
  destruct (requestAnimationFrame (wnd z)) eqn:Eraf.
  - eexists. split; [reflexivity | ].
    destruct Hwf as (Hid & Ha & Hr & Hres & Hfr).
    unfold wf, request_frame. simpl. rewrite length_app. simpl.
    repeat split; trivial.
    + apply Forall_app. split; [exact Hres | ].
      constructor; [exact Ha | constructor].
    + apply Forall_app. split.
      * eapply Forall_impl; [ | exact Hfr]. simpl. intros; lia.
      * constructor; [lia | constructor].
  - destruct (Zoom_setZoom_wf identity_ref z Hwf) as (z' & Hz' & Hwf' & _).
    { destruct Hwf as (Hid & _). eapply deref_Some_lt. exact Hid. }
    exists z'. split; assumption.
Qed.

Lemma step_wf (rid : nat) (time : number) (z : Zoom) :
  wf z -> (rid < length (resets (wnd z)))%nat ->
  exists z', step rid time z = Some z' /\ wf z'.
Proof.
  intros (Hid & Ha & Hr & Hres & Hfr) Hrid.
  unfold step.
  destruct (nth_error (resets (wnd z)) rid) as [c | ] eqn:Ec.
  2: { apply nth_error_None in Ec. lia. }
  simpl.
  assert (HZ : (Z c < length (heap z))%nat).
  { rewrite Forall_forall in Hres. apply Hres. eapply nth_error_In. exact Ec. }
  set (start := match startTime c with
                | Some s => if truthy s then s else time
                | None => time
                end).
  set (z1 := set_wnd _ z).
  assert (Hwf1 : wf z1).
  { unfold wf, z1. simpl. rewrite length_store. repeat split; trivial.
    apply Forall_store; [exact Hres | exact HZ]. }
  assert (Hlen1 : length (resets (wnd z1)) = length (resets (wnd z))).
  { unfold z1. simpl. apply length_store. }
  destruct ((time - start) / 100 >=? 1)%js.
  - destruct (Zoom_setZoom_wf identity_ref z1 Hwf1) as (z' & Hz' & Hwf' & _).
    { eapply deref_Some_lt. exact Hid. }
    exists z'. split; assumption.
  - subst z1. simpl heap.
    destruct (lt_deref_Some _ _ HZ) as [Zt ->]. rewrite Hid. simpl.
    match goal with
    | |- context [Zoom_setZoom ?r ?z2] =>
        destruct (Zoom_setZoom_wf r z2) as (z' & Hz' & Hwf' & _ & _ & Hw & _)
    end.
    { destruct Hwf1 as (_ & Ha1 & Hr1 & Hres1 & Hfr1).
      simpl in Ha1, Hr1, Hres1, Hfr1.
      unfold wf. simpl. rewrite length_app. simpl. repeat split; try lia.
      - unfold deref. rewrite nth_error_app1 by (unfold identity_ref; lia).
        exact Hid.
      - eapply Forall_lt_mono; [ | exact Hres1]. lia.
      - exact Hfr1. }
    { simpl. rewrite length_app. simpl. lia. }
    rewrite Hz'. simpl. eexists. split; [reflexivity | ].
    apply request_frame_wf; [exact Hwf' | ].
    rewrite Hw. simpl. rewrite length_store. exact Hrid.
Qed.

Lemma run_event_wf (ev : Event) (z : Zoom) :
  wf z -> event_ok ev -> exists z', run_event ev z = Some z' /\ wf z'.
Proof.
  intros Hwf Hok. destruct ev as [t | t | | time | | e]; simpl in *.
  - (* touch-start *)
    unfold touchstart.
    destruct (negb (inZoom z) && negb (zooming z) && _).
    { eexists. split; [reflexivity | exact Hwf]. }
    set (p := if (length t =? 2)%nat then (set_zooming true z, false) else _).
    assert (Hp : wf (fst p)); [ | destruct p as [z2 do_reset] ].
    { unfold p. destruct Hwf as (Hid & Ha & Hr & Hres & Hfr).
      destruct (length t =? 2)%nat; [repeat split; assumption | ].
      destruct (length t =? 1)%nat; [ | repeat split; assumption].
      destruct (negb (tapped z)); [ | repeat split; assumption].
      simpl. destruct (pan (config z)); repeat split; assumption. }
    simpl in Hp.
    destruct (getCoords_nonempty (element z2) t Hok) as [p Hc].
    assert (H1 : exists z3,
               (if zooming z2
                then p <- getCoords (element z2) t ;; Some (set_srcCoords p z2)
                else Some z2) = Some z3 /\ wf z3).
    { destruct (zooming z2).
      - rewrite Hc. simpl. eexists. split; [reflexivity | ].
        destruct Hp as (Hid & Ha & Hr & Hres & Hfr). repeat split; assumption.
      - eexists. split; [reflexivity | exact Hp]. }
    destruct H1 as (z3 & -> & Hwf3). simpl.
    destruct do_reset.
    + destruct (Zoom_reset_wf z3 Hwf3) as (z4 & -> & Hwf4). simpl.
      eexists. split; [reflexivity | exact Hwf4].
    + simpl. eexists. split; [reflexivity | exact Hwf3].
  - (* touch-move *)
    unfold touchmove.
    destruct (negb (inZoom z) && negb (zooming z)).
    { eexists. split; [reflexivity | exact Hwf]. }
    destruct (negb (zooming z)).
    { eexists. split; [reflexivity | exact Hwf]. }
    destruct (getCoords_nonempty (element z) t Hok) as [p ->]. simpl.
    match goal with
    | |- context [Zoom_previewZoom ?T z] =>
        destruct (Zoom_previewZoom_wf T z Hwf) as (z' & -> & Hwf')
    end.
    simpl. eexists. split; [reflexivity | exact Hwf'].
  - (* touch-end *)
    unfold touchend.
    destruct (negb (inZoom z) && negb (zooming z)).
    { eexists. split; [reflexivity | exact Hwf]. }
    destruct (zooming z); simpl.
    + eexists. split; [reflexivity | ].
      destruct Hwf as (Hid & Ha & Hr & Hres & Hfr). repeat split; assumption.
    + eexists. split; [reflexivity | exact Hwf].
  - (* a frame *)
    unfold run_frame.
    destruct (frames (wnd z)) as [ | rid rest] eqn:Ef.
    { eexists. split; [reflexivity | exact Hwf]. }
    destruct Hwf as (Hid & Ha & Hr & Hres & Hfr).
    rewrite Ef in Hfr. inversion Hfr as [ | ? ? Hrid Hrest]; subst.
    apply step_wf; [ | exact Hrid].
    repeat split; assumption.
  - (* the tap timer *)
    eexists. split; [reflexivity | ].
    destruct Hwf as (Hid & Ha & Hr & Hres & Hfr). repeat split; assumption.
  - eexists. split; [reflexivity | ].
    destruct Hwf as (Hid & Ha & Hr & Hres & Hfr). repeat split; assumption.
Qed.

Lemma run_events_wf (evs : list Event) (z : Zoom) :
  wf z -> Forall event_ok evs ->
  exists z', run_events evs z = Some z' /\ wf z'.
Proof.
  revert z. induction evs as [ | ev evs IH]; intros z Hwf Hok; simpl.
  - eexists. split; [reflexivity | exact Hwf].
  - inversion Hok as [ | ? ? Hev Hrest]; subst.
    destruct (run_event_wf ev z Hwf Hev) as (z1 & -> & Hwf1). simpl.
    exact (IH z1 Hwf1 Hrest).
Qed.

(** X15.  From a new engine, every sequence of events whose touch lists
    are not empty runs without a fault, and in the state reached the
    references of the engine point to objects of the store and the shared
    [identity] object is still the identity: rendering writes into
    Transforms, but never changes that one. *)
Theorem engine_never_faults
  (e : Element) (screen_h : number) (cfg : option (option bool * option bool))
  (raf : bool) (evs : list Event) :
  Forall event_ok evs ->
  exists z,
    run_events evs (Zoom_new e screen_h cfg raf) = Some z /\
    deref (heap z) identity_ref = Some identity /\
    (activeZoom z < length (heap z))%nat /\
    (resultantZoom z < length (heap z))%nat.
Proof.
  intros Hok.
  destruct (run_events_wf evs _ (wf_Zoom_new e screen_h cfg raf) Hok)
    as (z & Hz & Hid & Ha & Hr & _).
  exists z. repeat split; assumption.
Qed.

Lemma engine_never_faults_witness :
  exists z,
    run_events events_sample (Zoom_new e_sample screen_sample None true)
    = Some z /\
    deref (heap z) identity_ref = Some identity /\
    (activeZoom z < length (heap z))%nat /\
    (resultantZoom z < length (heap z))%nat.
Proof.
  apply (engine_never_faults e_sample screen_sample None true events_sample).
  unfold events_sample, touches_sample, touch_one, touch_one'.
  repeat constructor; discriminate.
Defined.

(** ** The listeners (lines 338-411) *)

(** X16.  While the surface is in native scroll mode and no session is
    active, only a touch-start with exactly two touches is claimed: every
    other touch-start, every touch-move and every touch-end leaves the
    engine as it is and does not prevent the default handling, whatever
    the configuration (a single finger starts no pan here even with [pan]
    enabled). *)
Theorem idle_events_unclaimed (z : Zoom) (t : list Touch) :
  inZoom z = false -> zooming z = false ->
  (length t <> 2%nat -> touchstart (Some t) z = Some (z, false)) /\
  touchstart None z = Some (z, false) /\
  touchmove (Some t) z = Some (z, false) /\
  touchend z = Some (z, false).
Proof.
  intros Hi Hz. unfold touchstart, touchmove, touchend. rewrite Hi, Hz. simpl.
  repeat split.
  intros Hlen. apply Nat.eqb_neq in Hlen. rewrite Hlen. reflexivity.
Qed.

Lemma idle_events_unclaimed_witness :
  (length touch_one <> 2%nat ->
   touchstart (Some touch_one)
              (Zoom_new e_sample screen_sample (Some (Some true, None)) true)
   = Some (Zoom_new e_sample screen_sample (Some (Some true, None)) true,
           false)) /\
  touchstart None (Zoom_new e_sample screen_sample (Some (Some true, None)) true)
  = Some (Zoom_new e_sample screen_sample (Some (Some true, None)) true, false) /\
  touchmove (Some touch_one)
            (Zoom_new e_sample screen_sample (Some (Some true, None)) true)
  = Some (Zoom_new e_sample screen_sample (Some (Some true, None)) true, false) /\
  touchend (Zoom_new e_sample screen_sample (Some (Some true, None)) true)
  = Some (Zoom_new e_sample screen_sample (Some (Some true, None)) true, false).
Proof.
  apply (idle_events_unclaimed
           (Zoom_new e_sample screen_sample (Some (Some true, None)) true)
           touch_one); reflexivity.
Defined.

(** A touch-start with exactly two touches starts a session in every
    state. *)
Lemma two_finger_start (z : Zoom) (t0 t1 : Touch) :
  touchstart (Some [t0; t1]) z
  = Some (set_srcCoords
            (((pageX t0 - offsetLeft (element z))%js,
              (pageY t0 - offsetTop (element z))%js),
             ((pageX t1 - offsetLeft (element z))%js,
              (pageY t1 - offsetTop (element z))%js))
            (set_zooming true z),
          true).
Proof.
  unfold touchstart. simpl. rewrite andb_false_r. reflexivity.
Qed.

(** X17.  A whole pinch.  On a new engine, a touch-start with two touches
    is claimed and starts a session whose source pair is the two touches
    relative to the element; after a touch-move and the touch-end the
    session is over and [activeZoom] is the solver's transform from the
    source pair to the pair of the move, composed on the identity, floored
    at scale 1 and pan-clamped. *)
Theorem pinch_gesture
  (e : Element) (screen_h : number) (cfg : option (option bool * option bool))
  (raf : bool) (t0 t1 : Touch) (t : list Touch) :
  t <> [] ->
  exists src dest z3,
    getCoords e [t0; t1] = Some src /\ getCoords e t = Some dest /\
    run_events [TouchStart [t0; t1]; TouchMove t; TouchEnd]
               (Zoom_new e screen_h cfg raf) = Some z3 /\
    zooming z3 = false /\
    deref (heap z3) (activeZoom z3)
    = Some (snd (css e screen_h
                     (cascade
                        (zoom src dest
                              (rotate_cfg (default_config cfg (mkConfig false true)))
                              Undefined)
                        identity TheElement))).
Proof.
  intros Ht.
  set (z0 := Zoom_new e screen_h cfg raf).
  exists (((pageX t0 - offsetLeft e)%js, (pageY t0 - offsetTop e)%js),
          ((pageX t1 - offsetLeft e)%js, (pageY t1 - offsetTop e)%js)).
  unfold run_events, run_event.
  rewrite (two_finger_start z0 t0 t1). cbn [bind fst].
  set (z1 := set_srcCoords _ (set_zooming true z0)).
  destruct (touchmove_touchend_commit z1 t) as
    (dest & active & z2 & z3 & Hd & Ha & Hm & He & Hz & Hobj);
    [reflexivity | unfold z1, z0, Zoom_new, identity_ref; simpl; lia | exact Ht | ].
  exists dest, z3.
  rewrite Hm. cbn [bind fst]. rewrite He. cbn [bind fst].
  split; [reflexivity | split; [exact Hd | split; [reflexivity | ]]].
  split; [exact Hz | ].
  unfold z1, z0, Zoom_new, deref, identity_ref in Ha. simpl in Ha.
  injection Ha as <-. exact Hobj.
Qed.

Lemma pinch_gesture_witness :
  exists src dest z3,
    getCoords e_sample [mkTouch (Num 0) (Num 0); mkTouch (Num 10) (Num 0)]
    = Some src /\
    getCoords e_sample touches_sample = Some dest /\
    run_events [TouchStart [mkTouch (Num 0) (Num 0); mkTouch (Num 10) (Num 0)];
                TouchMove touches_sample; TouchEnd]
               (Zoom_new e_sample screen_sample None true) = Some z3 /\
    zooming z3 = false /\
    deref (heap z3) (activeZoom z3)
    = Some (snd (css e_sample screen_sample
                     (cascade
                        (zoom src dest
                              (rotate_cfg (default_config None (mkConfig false true)))
                              Undefined)
                        identity TheElement))).
Proof.
  apply (pinch_gesture e_sample screen_sample None true
           (mkTouch (Num 0) (Num 0)) (mkTouch (Num 10) (Num 0)) touches_sample).
  discriminate.
Defined.

(** ** Taps and reset (lines 352-378, 445-468) *)

Lemma same_transforms_wf (z z' : Zoom) :
  same_transforms z z' -> wf z -> wf z'.
Proof.
  intros (h1 & h2 & h3 & _ & h5 & h6 & _) (Hid & Ha & Hr & Hres & Hfr).
  unfold wf. rewrite h1, h2, h3, h5, h6. repeat split; assumption.
Qed.

Lemma Zoom_setZoom_identity (z : Zoom) :
  wf z ->
  exists z',
    Zoom_setZoom identity_ref z = Some z' /\ native_scroll z' /\
    activeZoom z' = identity_ref /\ resultantZoom z' = identity_ref /\
    wnd z' = wnd z /\ tapped z' = tapped z /\ zooming z' = zooming z.
Proof.
  intros Hwf. pose proof Hwf as (Hid & _).
  destruct (Zoom_setZoom_wf identity_ref z Hwf)
    as (z' & Hz' & _ & Ha & Hr & Hw & Ht & Hzo).
  { eapply deref_Some_lt. exact Hid. }
  exists z'. split; [exact Hz' | ].
  split; [ | repeat split; assumption].
  unfold Zoom_setZoom in Hz'.
  destruct (Zoom_repaint_no_element
              (Zoom_finalize (set_resultantZoom identity_ref z)) identity)
    as (z'' & Hz'' & Hn & _); [exact Hid | reflexivity | ].
  rewrite Hz' in Hz''. injection Hz'' as <-. exact Hn.
Qed.

Lemma Zoom_reset_result (z : Zoom) :
  wf z ->
  exists z',
    Zoom_reset z = Some z' /\ tapped z' = tapped z /\ zooming z' = zooming z /\
    if requestAnimationFrame (wnd z)
    then heap z' = heap z /\ activeZoom z' = activeZoom z /\
         resultantZoom z' = resultantZoom z /\ element z' = element z /\
         inZoom z' = inZoom z /\
         resets (wnd z') = resets (wnd z) ++ [mkReset (activeZoom z) None] /\
         frames (wnd z') = frames (wnd z) ++ [length (resets (wnd z))]
    else activeZoom z' = identity_ref /\ resultantZoom z' = identity_ref /\
         native_scroll z' /\ wnd z' = wnd z.
Proof.
  intros Hwf. unfold Zoom_reset.
  destruct (requestAnimationFrame (wnd z)) eqn:Eraf.
  - eexists. split; [reflexivity | ]. simpl. repeat split.
  - destruct (Zoom_setZoom_identity z Hwf)
      as (z' & Hz' & Hn & Ha & Hr & Hw & Ht & Hzo).
    exists z'. repeat split; trivial; apply Hn.
Qed.

(** X18.  The exported [reset].  With a frame scheduler it returns at once
    with every Transform and the presentation untouched, having captured
    [activeZoom] in a new closure and requested one frame; without one it
    commits the identity immediately and puts the surface in native scroll
    mode. *)
Theorem reset_behaviour (z : Zoom) :
  wf z ->
  exists z',
    Zoom_reset z = Some z' /\ tapped z' = tapped z /\ zooming z' = zooming z /\
    if requestAnimationFrame (wnd z)
    then heap z' = heap z /\ activeZoom z' = activeZoom z /\
         resultantZoom z' = resultantZoom z /\ element z' = element z /\
         inZoom z' = inZoom z /\
         resets (wnd z') = resets (wnd z) ++ [mkReset (activeZoom z) None] /\
         frames (wnd z') = frames (wnd z) ++ [length (resets (wnd z))]
    else activeZoom z' = identity_ref /\ resultantZoom z' = identity_ref /\
         native_scroll z' /\ wnd z' = wnd z.
Proof. exact (Zoom_reset_result z). Qed.

Lemma wf_z_zoomed (raf : bool) : wf (z_zoomed raf).
Proof.
  unfold wf, z_zoomed, identity_ref, deref. simpl.
  repeat split; auto.
Qed.

Lemma reset_behaviour_witness :
  exists z',
    Zoom_reset (z_zoomed false) = Some z' /\
    tapped z' = tapped (z_zoomed false) /\
    zooming z' = zooming (z_zoomed false) /\
    if requestAnimationFrame (wnd (z_zoomed false))
    then heap z' = heap (z_zoomed false) /\
         activeZoom z' = activeZoom (z_zoomed false) /\
         resultantZoom z' = resultantZoom (z_zoomed false) /\
         element z' = element (z_zoomed false) /\
         inZoom z' = inZoom (z_zoomed false) /\
         resets (wnd z')
         = resets (wnd (z_zoomed false))
           ++ [mkReset (activeZoom (z_zoomed false)) None] /\
         frames (wnd z')
         = frames (wnd (z_zoomed false))
           ++ [length (resets (wnd (z_zoomed false)))]
    else activeZoom z' = identity_ref /\ resultantZoom z' = identity_ref /\
         native_scroll z' /\ wnd z' = wnd (z_zoomed false).
Proof. apply (reset_behaviour (z_zoomed false)). exact (wf_z_zoomed false). Defined.

(** The first single-touch start outside idle: a tap becomes pending. *)
Lemma touchstart_first_tap (z : Zoom) (t0 : Touch) :
  inZoom z = true \/ zooming z = true -> tapped z = false ->
  exists z1,
    touchstart (Some [t0]) z = Some (z1, true) /\ tapped z1 = true /\
    (zooming z1 = true <-> zooming z = true \/ pan (config z) = true) /\
    same_transforms z z1.
Proof.
  intros Hgate Htap. unfold touchstart.
  assert (Hg : negb (inZoom z) && negb (zooming z) = false).
  { destruct Hgate as [-> | ->]; [reflexivity | apply andb_false_r]. }
  rewrite Hg. simpl. rewrite Htap. simpl.
  destruct (pan (config z)) eqn:Ep; simpl.
  - eexists. split; [reflexivity | ]. simpl.
    split; [reflexivity | split; [ | repeat split]].
    split; auto.
  - destruct (zooming z) eqn:Ez; simpl.
    + eexists. split; [reflexivity | ]. simpl.
      split; [reflexivity | split; [ | repeat split]].
      split; auto.
    + eexists. split; [reflexivity | ]. simpl.
      split; [reflexivity | split; [ | repeat split]].
      rewrite Ez. split; [discriminate | intros [H | H]; discriminate].
Qed.

(** The second single-touch start while a tap is pending: a reset. *)
Lemma touchstart_second_tap (z : Zoom) (t0 : Touch) :
  inZoom z = true \/ zooming z = true -> tapped z = true ->
  exists z0,
    touchstart (Some [t0]) z = (z' <- Zoom_reset z0 ;; Some (z', true)) /\
    tapped z0 = false /\ same_transforms z z0.
Proof.
  intros Hgate Htap. unfold touchstart.
  assert (Hg : negb (inZoom z) && negb (zooming z) = false).
  { destruct Hgate as [-> | ->]; [reflexivity | apply andb_false_r]. }
  rewrite Hg. simpl. rewrite Htap. simpl.
  destruct (zooming z) eqn:Ez; simpl.
  - eexists. split; [reflexivity | ]. simpl. repeat split.
  - eexists. split; [reflexivity | ]. simpl. repeat split.
Qed.

(** X19.  A double tap resets.  When the surface is zoomed or a session
    is active and no tap is pending, a touch-start with one touch is
    claimed and leaves a tap pending; a second one, before the tap timer
    fires, is claimed, clears the pending tap and calls [reset]: with a
    frame scheduler a frame is requested and [activeZoom] stays, without
    one [activeZoom] becomes the identity and the surface returns to native
    scroll mode. *)
Theorem double_tap_resets (z : Zoom) (t0 u0 : Touch) :
  wf z -> inZoom z = true \/ zooming z = true -> tapped z = false ->
  exists z1 z2,
    touchstart (Some [t0]) z = Some (z1, true) /\ tapped z1 = true /\
    touchstart (Some [u0]) z1 = Some (z2, true) /\ tapped z2 = false /\
    if requestAnimationFrame (wnd z)
    then heap z2 = heap z /\ activeZoom z2 = activeZoom z /\
         frames (wnd z2) = frames (wnd z) ++ [length (resets (wnd z))] /\
         resets (wnd z2) = resets (wnd z) ++ [mkReset (activeZoom z) None]
    else activeZoom z2 = identity_ref /\ resultantZoom z2 = identity_ref /\
         native_scroll z2.
Proof.
  intros Hwf Hgate Htap.
  destruct (touchstart_first_tap z t0 Hgate Htap)
    as (z1 & H1 & Ht1 & Hz1 & Hs1).
  assert (Hgate1 : inZoom z1 = true \/ zooming z1 = true).
  { destruct Hs1 as (_ & _ & _ & _ & _ & _ & _ & Hin & _).
    destruct Hgate as [H | H]; [left; congruence | right; apply Hz1; auto]. }
  destruct (touchstart_second_tap z1 u0 Hgate1 Ht1) as (z0 & H2 & Ht0 & Hs0).
  destruct (Zoom_reset_result z0) as (z2 & Hr & Ht2 & _ & Hres).
  { eapply same_transforms_wf; [exact Hs0 | ].
    eapply same_transforms_wf; [exact Hs1 | exact Hwf]. }
  rewrite Hr in H2. simpl in H2.
  exists z1, z2. split; [exact H1 | split; [exact Ht1 | split; [exact H2 | ]]].
  split; [congruence | ].
  destruct Hs1 as (a1 & a2 & a3 & a4 & a5 & a6 & _).
  destruct Hs0 as (c1 & c2 & c3 & c4 & c5 & c6 & _).
  rewrite c4, a4 in Hres.
  destruct (requestAnimationFrame (wnd z)).
  - destruct Hres as (r1 & r2 & _ & _ & _ & r6 & r7).
    repeat split; congruence.
  - destruct Hres as (r1 & r2 & r3 & _). repeat split; trivial; apply r3.
Qed.

Lemma double_tap_resets_witness :
  exists z1 z2,
    touchstart (Some touch_one) (z_zoomed false) = Some (z1, true) /\
    tapped z1 = true /\
    touchstart (Some touch_one') z1 = Some (z2, true) /\ tapped z2 = false /\
    if requestAnimationFrame (wnd (z_zoomed false))
    then heap z2 = heap (z_zoomed false) /\
         activeZoom z2 = activeZoom (z_zoomed false) /\
         frames (wnd z2)
         = frames (wnd (z_zoomed false))
           ++ [length (resets (wnd (z_zoomed false)))] /\
         resets (wnd z2)
         = resets (wnd (z_zoomed false))
           ++ [mkReset (activeZoom (z_zoomed false)) None]
    else activeZoom z2 = identity_ref /\ resultantZoom z2 = identity_ref /\
         native_scroll z2.
Proof.
  apply (double_tap_resets (z_zoomed false) (mkTouch (Num 50) (Num 60))
           (mkTouch (Num 52) (Num 61))).
  - exact (wf_z_zoomed false).
  - left. reflexivity.
  - reflexivity.
Defined.

(** X20.  Two taps apart are not a double tap.  If the tap timer fires
    between two single-touch starts, the second one is treated as a first
    tap: it is claimed and leaves a tap pending, and no reset happens (the
    Transforms, the references, the frame queue and the presentation are
    as before). *)
Theorem slow_taps_do_not_reset (z : Zoom) (t0 u0 : Touch) :
  inZoom z = true \/ zooming z = true -> tapped z = false ->
  exists z1 z2,
    touchstart (Some [t0]) z = Some (z1, true) /\
    touchstart (Some [u0]) (tap_timeout z1) = Some (z2, true) /\
    tapped z2 = true /\ same_transforms z z2.
Proof.
  intros Hgate Htap.
  destruct (touchstart_first_tap z t0 Hgate Htap)
    as (z1 & H1 & Ht1 & Hz1 & Hs1).
  assert (Hs1' : same_transforms z (tap_timeout z1)).
  { destruct Hs1 as (a1 & a2 & a3 & a4 & a5 & a6 & a7 & a8 & a9 & a10).
    unfold same_transforms, tap_timeout. simpl. repeat split; assumption. }
  assert (Hgate1 : inZoom (tap_timeout z1) = true
                   \/ zooming (tap_timeout z1) = true).
  { destruct Hs1 as (_ & _ & _ & _ & _ & _ & _ & Hin & _).
    destruct Hgate as [H | H];
      [left; simpl; congruence | right; simpl; apply Hz1; auto]. }
  destruct (touchstart_first_tap (tap_timeout z1) u0 Hgate1 eq_refl)
    as (z2 & H2 & Ht2 & _ & Hs2).
  exists z1, z2. repeat split; trivial;
    destruct Hs1' as (a1 & a2 & a3 & a4 & a5 & a6 & a7 & a8 & a9 & a10);
    destruct Hs2 as (c1 & c2 & c3 & c4 & c5 & c6 & c7 & c8 & c9 & c10);
    congruence.
Qed.

Lemma slow_taps_do_not_reset_witness :
  exists z1 z2,
    touchstart (Some touch_one) (z_zoomed true) = Some (z1, true) /\
    touchstart (Some touch_one') (tap_timeout z1) = Some (z2, true) /\
    tapped z2 = true /\ same_transforms (z_zoomed true) z2.
Proof.
  apply (slow_taps_do_not_reset (z_zoomed true) (mkTouch (Num 50) (Num 60))
           (mkTouch (Num 52) (Num 61))).
  - left. reflexivity.
  - reflexivity.
Defined.

(** ** The frames of the animated reset (lines 452-463) *)

Lemma progress_value (t s : R) :
  ((Num t - Num s) / Num 100)%js = Num ((t - s) / 100).
Proof. unfold JS.div, JS.sub. rewrite Reqb_false by lra. reflexivity. Qed.

Lemma ge_1_finite (p : R) : (Num p >=? 1)%js = negb (Rltb p 1).
Proof. reflexivity. Qed.

Lemma step_timing_cases
  (z : Zoom) (rid : nat) (c : ResetClosure) (Zt : Transform) (s t : R) :
  wf z ->
  nth_error (resets (wnd z)) rid = Some c ->
  startTime c = Some (Num s) -> s <> 0 ->
  deref (heap z) (Z c) = Some Zt ->
  (100 <= t - s ->
   exists z',
     step rid (Num t) z = Some z' /\
     activeZoom z' = identity_ref /\ resultantZoom z' = identity_ref /\
     native_scroll z' /\ frames (wnd z') = frames (wnd z)) /\
  (t - s < 100 ->
   exists z',
     step rid (Num t) z = Some z' /\
     frames (wnd z') = frames (wnd z) ++ [rid] /\
     activeZoom z' = length (heap z) /\ resultantZoom z' = length (heap z) /\
     deref (heap z') (length (heap z))
     = Some (snd (css (element z) (screen_height z)
                      (Transform_avg Zt identity (Num ((t - s) / 100)))))).
Proof.
  intros Hwf Hc Hs Hs0 HZ. pose proof Hwf as (Hid & Ha & Hr & Hres & Hfr).
  assert (Hstart : truthy (Num s) = true).
  { unfold truthy. rewrite Reqb_false by exact Hs0. reflexivity. }
  split; intros Ht; unfold step; rewrite Hc; cbn [bind]; rewrite Hs, Hstart;
    rewrite progress_value, ge_1_finite.
  - rewrite Rltb_false by lra. cbn [negb].
    match goal with
    | |- context [Zoom_setZoom identity_ref ?z1] =>
        destruct (Zoom_setZoom_identity z1)
          as (z' & Hz' & Hn & Hact & Hres' & Hw & _)
    end.
    { unfold wf. simpl. rewrite length_store. repeat split; trivial.
      apply Forall_store; [exact Hres | ].
      eapply deref_Some_lt. exact HZ. }
    exists z'. repeat split; trivial; try apply Hn.
    rewrite Hw. reflexivity.
  - rewrite Rltb_true by lra. cbn [negb].
    cbn [heap set_wnd]. rewrite HZ, Hid. cbn [bind alloc].
    set (T := Transform_avg Zt identity (Num ((t - s) / 100))).
    unfold Zoom_setZoom.
    match goal with
    | |- context [Zoom_repaint ?z1] =>
        destruct (Zoom_repaint_result z1 T) as (z' & Hz' & Hobj & _);
        [ exact (deref_alloc_new (heap z) T) | ];
        destruct (Zoom_repaint_Some_inv _ _ Hz')
          as ((_ & Hact & Hres' & _ & _ & _ & Hw & _) & _)
    end.
    rewrite Hz'. cbn [bind].
    eexists. split; [reflexivity | ].
    simpl in Hact, Hres', Hw, Hobj.
    unfold request_frame. simpl. rewrite Hw. simpl.
    repeat split; trivial.
    rewrite Hres' in Hobj. exact Hobj.
Qed.



(** ** Interpolation, continued (lines 227-255) *)

(** X23.  The frames of a reset are never altered by the scale floor: for
    Transforms with real entries whose diagonal entries are at least 1 and
    a progress [p] with [0 <= p <= 1], the diagonal entries of
    [Transform.avg(Z, I, p)] are at least 1, and [css] leaves the blended
    Transform exactly as it is. *)
Theorem Transform_avg_keeps_scale
  (Z0 I0 : Transform) (z00 z11 i00 i11 p : R) (e : Element) (sh : number) :
  finiteT Z0 -> finiteT I0 ->
  fst (fst (A Z0)) = Num z00 -> snd (snd (A Z0)) = Num z11 ->
  fst (fst (A I0)) = Num i00 -> snd (snd (A I0)) = Num i11 ->
  1 <= z00 -> 1 <= z11 -> 1 <= i00 -> 1 <= i11 -> 0 <= p <= 1 ->
  snd (css e sh (Transform_avg Z0 I0 (Num p))) = Transform_avg Z0 I0 (Num p).
Proof.
  intros [HZA HZb] [HIA HIb] Hz0 Hz1 Hi0 Hi1 H1 H2 H3 H4 Hp.
  destruct Z0 as [ZA Zb Ze], I0 as [IA Ib Ie]. simpl in *.
  destruct (finiteM_inv _ HZA) as (a & a' & c' & c & ->).
  destruct (finiteV_inv _ HZb) as (zb0 & zb1 & ->).
  destruct (finiteM_inv _ HIA) as (d & d' & f' & f & ->).
  destruct (finiteV_inv _ HIb) as (ib0 & ib1 & ->).
  simpl in Hz0, Hz1, Hi0, Hi1.
  injection Hz0 as ->. injection Hz1 as ->.
  injection Hi0 as ->. injection Hi1 as ->.
  unfold Transform_avg, avgMatrix, avgVector, vcadd, scmult, css, JS.lt.
  cbn -[Rltb Rplus Rminus Rmult].
  rewrite !Rltb_false by nra. reflexivity.
Qed.

Lemma Transform_avg_keeps_scale_witness :
  snd (css e_sample screen_sample (Transform_avg T_triple identity (Num (1/2))))
  = Transform_avg T_triple identity (Num (1/2)).
Proof.
  apply (Transform_avg_keeps_scale T_triple identity 3 3 1 1 (1/2));
    try reflexivity; try (repeat split); lra.
Defined.

(** ** A whole animated reset *)

(** The first frame of a reset records its time as the start and blends
    at progress 0. *)
Lemma step_first_frame (z : Zoom) (rid : nat) (c : ResetClosure) (t : R) :
  wf z ->
  nth_error (resets (wnd z)) rid = Some c ->
  startTime c = None ->
  exists z',
    step rid (Num t) z = Some z' /\ wf z' /\
    frames (wnd z') = frames (wnd z) ++ [rid] /\
    nth_error (resets (wnd z')) rid = Some (mkReset (Z c) (Some (Num t))).
Proof.
  intros Hwf Hc Hs. pose proof Hwf as (Hid & Ha & Hr & Hres & Hfr).
  assert (Hrid : (rid < length (resets (wnd z)))%nat).
  { apply nth_error_Some. congruence. }
  assert (HZ : (Z c < length (heap z))%nat).
  { rewrite Forall_forall in Hres. apply Hres. eapply nth_error_In. exact Hc. }
  destruct (lt_deref_Some _ _ HZ) as [Zt HZt].
  unfold step. rewrite Hc. cbn [bind]. rewrite Hs.
  rewrite progress_value, ge_1_finite, Rltb_true by lra. cbn [negb].
  cbn [heap set_wnd]. rewrite HZt, Hid. cbn [bind alloc].
  match goal with
  | |- context [Zoom_setZoom ?r ?z2] =>
      destruct (Zoom_setZoom_wf r z2) as (z' & Hz' & Hwf' & _ & _ & Hw & _)
  end.
  { unfold wf. simpl. rewrite length_app, length_store. simpl.
    repeat split; try lia.
    - unfold deref. rewrite nth_error_app1 by (unfold identity_ref; lia).
      exact Hid.
    - eapply Forall_lt_mono; [ | apply Forall_store; [exact Hres | exact HZ]].
      lia.
    - exact Hfr. }
  { simpl. rewrite length_app. simpl. lia. }
  rewrite Hz'. cbn [bind]. simpl in Hw.
  eexists. split; [reflexivity | ].
  split; [ | split].
  - apply request_frame_wf; [exact Hwf' | ].
    rewrite Hw. simpl. rewrite length_store. exact Hrid.
  - unfold request_frame. simpl. rewrite Hw. reflexivity.
  - unfold request_frame. simpl. rewrite Hw. simpl.
    apply nth_error_store_same. exact Hrid.
Qed.

(** X24.  An animated reset completes.  With a frame scheduler and no
    frame pending, [reset] followed by a first frame at a time [t0] (not
    0) and a frame at least 100 time units later leaves [activeZoom] and
    [resultantZoom] on the identity, the surface in native scroll mode, and
    no frame requested: the animation is over. *)
Theorem animated_reset_completes (z : Zoom) (t0 t1 : R) :
  wf z -> requestAnimationFrame (wnd z) = true -> frames (wnd z) = [] ->
  t0 <> 0 -> 100 <= t1 - t0 ->
  exists z1 z2 z3,
    Zoom_reset z = Some z1 /\
    run_frame (Num t0) z1 = Some z2 /\
    run_frame (Num t1) z2 = Some z3 /\
    activeZoom z3 = identity_ref /\ resultantZoom z3 = identity_ref /\
    native_scroll z3 /\ frames (wnd z3) = [].
Proof.
  intros Hwf Hraf Hfr0 Ht0 Ht1.
  destruct (Zoom_reset_wf z Hwf) as (z1 & Hz1 & Hwf1).
  destruct (Zoom_reset_result z Hwf) as (z1' & Hz1' & _ & _ & Hres).
  rewrite Hz1 in Hz1'. injection Hz1' as <-. rewrite Hraf in Hres.
  destruct Hres as (_ & Hact & _ & _ & _ & Hrs & Hfs).
  rewrite Hfr0 in Hfs. simpl in Hfs.
  set (rid := length (resets (wnd z))) in *.
  exists z1. rewrite Hz1.
  (* the first frame *)
  unfold run_frame at 1. rewrite Hfs.
  set (z1p := set_wnd _ z1).
  assert (Hwf1p : wf z1p).
  { destruct Hwf1 as (h1 & h2 & h3 & h4 & h5).
    unfold wf, z1p. simpl. repeat split; trivial. }
  assert (Hc : nth_error (resets (wnd z1p)) rid
               = Some (mkReset (activeZoom z) None)).
  { unfold z1p. simpl. rewrite Hrs, nth_error_app2 by (unfold rid; lia).
    unfold rid. rewrite Nat.sub_diag. reflexivity. }
  destruct (step_first_frame z1p rid _ t0 Hwf1p Hc eq_refl)
    as (z2 & Hz2 & Hwf2 & Hf2 & Hc2).
  exists z2. rewrite Hz2.
  (* the last frame *)
  unfold run_frame. rewrite Hf2. unfold z1p at 1. simpl.
  set (z2p := set_wnd _ z2).
  assert (Hwf2p : wf z2p).
  { destruct Hwf2 as (h1 & h2 & h3 & h4 & h5).
    unfold wf, z2p. simpl. repeat split; trivial. }
  assert (HZ2 : exists Zt, deref (heap z2p) (activeZoom z) = Some Zt).
  { apply lt_deref_Some. destruct Hwf2p as (_ & _ & _ & h4 & _).
    rewrite Forall_forall in h4.
    apply (h4 (mkReset (activeZoom z) (Some (Num t0)))).
    eapply nth_error_In. unfold z2p. simpl. exact Hc2. }
  destruct HZ2 as [Zt HZt].
  destruct (step_timing_cases z2p rid (mkReset (activeZoom z) (Some (Num t0)))
              Zt t0 t1 Hwf2p) as [Hlast _]; trivial.
  destruct (Hlast Ht1) as (z3 & Hz3 & Ha3 & Hr3 & Hn3 & Hf3).
  exists z3. repeat split; trivial; apply Hn3.
Qed.

Lemma animated_reset_completes_witness :
  exists z1 z2 z3,
    Zoom_reset (z_zoomed true) = Some z1 /\
    run_frame (Num 16) z1 = Some z2 /\
    run_frame (Num 200) z2 = Some z3 /\
    activeZoom z3 = identity_ref /\ resultantZoom z3 = identity_ref /\
    native_scroll z3 /\ frames (wnd z3) = [].
Proof.
  apply (animated_reset_completes (z_zoomed true) 16 200).
  - exact (wf_z_zoomed true).
  - reflexivity.
  - reflexivity.
  - lra.
  - lra.
Defined.
